(** * GXK Structure Calculator: the calculator module in Rocq

    A shallow embedding of [CalculatorModule] (parseRequirement, formatTime,
    calculateResourcesRecursive, buildDependencyTree) and of [updateLevel]
    of the page, the properties of the specification, and further properties
    of the code.

    Modelling conventions.
    - A JavaScript string is a [string]: one character per code unit, for
      code units below 256.
    - A JavaScript number is an exact rational ([Qc]); a level is an
      integer ([Z]).  Rounding of IEEE doubles is outside the model, and so is
      division by zero ([x / 0] is [0] in [Qc], [Infinity] in JavaScript),
      which only a speed bonus of exactly -100 reaches.
    - A plain object used as a map is a [gmap] (the properties an object
      inherits from [Object.prototype] are not modelled); [allDependencies],
      whose iteration order decides the order of the recursive calls, is an
      association list read in the order of [Object.entries].
    - A field that a level may lack ([costs], [upgrade_time],
      [requirements]) is present and empty or zero: the program treats both
      alike.
    - The [visited] set is threaded through the recursion as explicit state.
    - Recursion is bounded by fuel; [calc_enough_fuel] shows that the
      aggregator never runs out of it.  The tree builder can: on a cyclic
      database it does not return. *)

From Stdlib Require Import QArith Qcanon Qround Ascii String DecimalString
  DecimalPos.
From stdpp Require Import gmap strings list fin_maps sorting.

Local Open Scope string_scope.
Local Open Scope Z_scope.
Local Open Scope list_scope.

#[local] Set Warnings "-clear-no-such-hyp".

(** ** Strings and character classes *)

Definition code (c : ascii) : N := N_of_ascii c.

(** [\d] *)
Definition is_digit (c : ascii) : bool :=
  ((48 <=? code c) && (code c <=? 57))%N.

(** [\s]: tab, line feed, vertical tab, form feed, carriage return, space,
    no-break space. *)
Definition is_space (c : ascii) : bool :=
  match code c with
  | 9 | 10 | 11 | 12 | 13 | 32 | 160 => true
  | _ => false
  end%N.

(** Line terminators, the characters [.] does not match. *)
Definition is_line_terminator (c : ascii) : bool :=
  match code c with
  | 10 | 13 => true
  | _ => false
  end%N.

(** Length of the longest prefix whose characters satisfy [p]. *)
Fixpoint run_length (p : ascii -> bool) (s : string) : nat :=
  match s with
  | String c s' => if p c then S (run_length p s') else O
  | EmptyString => O
  end.

Fixpoint take_str (n : nat) (s : string) : string :=
  match n, s with
  | S n', String c s' => String c (take_str n' s')
  | _, _ => ""
  end.

Fixpoint drop_str (n : nat) (s : string) : string :=
  match n, s with
  | S n', String _ s' => drop_str n' s'
  | _, _ => s
  end.

(** [parseInt] on a run of decimal digits. *)
Definition digit_value (c : ascii) : Z := Z.of_N (code c) - 48.

Fixpoint parseInt_from (acc : Z) (s : string) : Z :=
  match s with
  | String c s' => parseInt_from (10 * acc + digit_value c) s'
  | EmptyString => acc
  end.

Definition parseInt (s : string) : Z := parseInt_from 0 s.

(** Number to string, as a template literal prints an integer. *)
Definition Z_to_string (z : Z) : string :=
  match z with
  | Z0 => "0"
  | Zpos p => NilEmpty.string_of_uint (Pos.to_uint p)
  | Zneg p => String "-" (NilEmpty.string_of_uint (Pos.to_uint p))
  end.

(** ** parseRequirement

    [requirement.match(/Level (\d+)\s+(.+)/)]: the leftmost match of an
    unanchored pattern, each quantifier greedy and giving characters back
    when the rest of the pattern fails. *)

Record Requirement := mkRequirement { req_structure : string; req_level : Z }.

(** [(.+)] at the end of the pattern: the longest run of characters other
    than line terminators, at least one. *)
Definition match_name (s : string) : option string :=
  match run_length (fun c => negb (is_line_terminator c)) s with
  | O => None
  | n => Some (take_str n s)
  end.

(** [\s+(.+)] with [\s+] trying [j], [j-1], ..., 1 characters. *)
Fixpoint match_spaces (j : nat) (s : string) : option string :=
  match j with
  | O => None
  | S j' =>
      match match_name (drop_str j s) with
      | Some name => Some name
      | None => match_spaces j' s
      end
  end.

(** [(\d+)\s+(.+)] with [\d+] trying [k], [k-1], ..., 1 characters. *)
Fixpoint match_digits (k : nat) (s : string) : option (string * string) :=
  match k with
  | O => None
  | S k' =>
      let rest := drop_str k s in
      match match_spaces (run_length is_space rest) rest with
      | Some name => Some (take_str k s, name)
      | None => match_digits k' s
      end
  end.

(** The whole pattern tried at the start of [s]. *)
Definition match_here (s : string) : option (string * string) :=
  if String.prefix "Level " s then
    let rest := drop_str 6 s in
    match_digits (run_length is_digit rest) rest
  else None.

(** The pattern tried at every position from left to right. *)
Fixpoint regex_match (s : string) : option (string * string) :=
  match match_here s with
  | Some m => Some m
  | None =>
      match s with
      | String _ s' => regex_match s'
      | EmptyString => None
      end
  end.

Definition parseRequirement (requirement : string) : option Requirement :=
  match regex_match requirement with
  | Some (digits, name) => Some (mkRequirement name (parseInt digits))
  | None => None
  end.

(** ** formatTime *)

(** [Math.floor]. *)
Definition floor (x : Qc) : Z := Qfloor x.

(** Rounding towards zero, as the [%] operator divides. *)
Definition trunc (x : Qc) : Z :=
  if Qle_bool 0 x then Qfloor x else Qceiling x.

(** [x % m] *)
Definition js_rem (x m : Qc) : Qc := (x - m * Qc_of_Z (trunc (x / m)))%Qc.

Definition push_if (b : bool) (part : string) (parts : list string) : list string :=
  if b then parts ++ [part] else parts.

Fixpoint join (sep : string) (parts : list string) : string :=
  match parts with
  | [] => ""
  | [p] => p
  | p :: ps => p +:+ sep +:+ join sep ps
  end.

Definition formatTime (seconds : Qc) : string :=
  let days := floor (seconds / Qc_of_Z 86400) in
  let hours := floor (js_rem seconds (Qc_of_Z 86400) / Qc_of_Z 3600) in
  let minutes := floor (js_rem seconds (Qc_of_Z 3600) / Qc_of_Z 60) in
  let secs := floor (js_rem seconds (Qc_of_Z 60)) in
  let parts := [] in
  let parts := push_if (0 <? days)%Z (Z_to_string days +:+ "d") parts in
  let parts := push_if (0 <? hours)%Z (Z_to_string hours +:+ "h") parts in
  let parts := push_if (0 <? minutes)%Z (Z_to_string minutes +:+ "m") parts in
  let parts := push_if ((0 <? secs) && (days =? 0) && (hours =? 0))%Z
                       (Z_to_string secs +:+ "s") parts in
  match parts with
  | [] => "0s"
  | _ => join " " parts
  end.

(** ** The structure database and the results *)

Record LevelData := mkLevelData {
  costs : gmap string Qc;
  upgrade_time : Qc;
  requirements : list string
}.

Record StructureDefinition := mkStructure { levels : gmap Z LevelData }.

Record Dependency := mkDependency {
  dep_name : string;
  dep_level : Z;
  dep_resources : gmap string Qc;
  dep_time : Qc
}.

Record AggregateResult := mkResult {
  individualCosts : gmap string Qc;
  dependencyCosts : gmap string Qc;
  totalCosts : gmap string Qc;
  dependencies : list Dependency;
  individualTimes : Qc;
  dependencyTimes : Qc;
  totalTime : Qc
}.

(** The object [result] as the function creates it. *)
Definition empty_result : AggregateResult :=
  mkResult ∅ ∅ ∅ [] 0%Qc 0%Qc 0%Qc.

(** [currentLevels[structure] || 1] *)
Definition level_or_1 (currentLevels : gmap string Z) (structure : string) : Z :=
  match currentLevels !! structure with
  | Some 0 | None => 1
  | Some l => l
  end.

(** [if (currentLevel === null) currentLevel = currentLevels[structure] || 1] *)
Definition resolve_level (currentLevels : gmap string Z) (structure : string)
    (currentLevel : option Z) : Z :=
  match currentLevel with
  | Some l => l
  | None => level_or_1 currentLevels structure
  end.

(** [(m[resource] || 0) + amount], stored back under [resource]. *)
Definition add_cost (m : gmap string Qc) (resource : string) (amount : Qc)
  : gmap string Qc :=
  <[resource := (default 0%Qc (m !! resource) + amount)%Qc]> m.

(** ** The object [allDependencies]

    Own properties in creation order; [Object_entries] lists them as
    JavaScript does: array-index keys first, in ascending numeric order, then
    the other keys in creation order. *)

Fixpoint obj_get (o : list (string * Z)) (k : string) : option Z :=
  match o with
  | [] => None
  | (k', v) :: o' => if decide (k = k') then Some v else obj_get o' k
  end.

Fixpoint obj_set (o : list (string * Z)) (k : string) (v : Z) : list (string * Z) :=
  match o with
  | [] => [(k, v)]
  | (k', v') :: o' =>
      if decide (k = k') then (k, v) :: o' else (k', v') :: obj_set o' k v
  end.

(** Every character of [s] satisfies [p]. *)
Fixpoint all_chars (p : ascii -> bool) (s : string) : bool :=
  match s with
  | String c s' => p c && all_chars p s'
  | EmptyString => true
  end.

Abbreviation all_digits := (all_chars is_digit).
Abbreviation all_spaces := (all_chars is_space).
Abbreviation no_line_terminator := (all_chars (fun c => negb (is_line_terminator c))).

(** A canonical numeric string below [2^32 - 1]. *)
Definition is_array_index (s : string) : bool :=
  negb (String.eqb s "") && all_digits s
  && String.eqb (Z_to_string (parseInt s)) s
  && (parseInt s <=? 4294967294).

Definition index_le (a b : string * Z) : Prop := parseInt a.1 <= parseInt b.1.

#[global] Instance index_le_dec : RelDecision index_le.
Proof. intros a b. unfold index_le. apply _. Defined.

Definition Object_entries (o : list (string * Z)) : list (string * Z) :=
  merge_sort index_le (filter (fun e => is_array_index e.1 = true) o)
  ++ filter (fun e => is_array_index e.1 <> true) o.

(** ** calculateResourcesRecursive *)

(** The [visited] set, and a record of every entry appended to a
    [dependencies] list anywhere in the recursion (the record is not part of
    the program: nothing reads it). *)
Record State := mkState {
  visited : gset string;
  appended : list (string * Z)
}.

Definition visit (depKey : string) (st : State) : State :=
  mkState ({[depKey]} ∪ visited st) (appended st).

Definition record_push (depStructure : string) (maxLevel : Z) (st : State) : State :=
  mkState (visited st) (appended st ++ [(depStructure, maxLevel)]).

(** [`${depStructure}-${maxLevel}`] *)
Definition make_depKey (depStructure : string) (maxLevel : Z) : string :=
  depStructure +:+ "-" +:+ Z_to_string maxLevel.

(** [if (!allDependencies[parsed.structure] || parsed.level >
    allDependencies[parsed.structure])]: a stored level of 0 is falsy. *)
Definition track_maximum (allDependencies : list (string * Z))
    (parsed : Requirement) : list (string * Z) :=
  match obj_get allDependencies (req_structure parsed) with
  | Some 0 | None =>
      obj_set allDependencies (req_structure parsed) (req_level parsed)
  | Some known =>
      if known <? req_level parsed
      then obj_set allDependencies (req_structure parsed) (req_level parsed)
      else allDependencies
  end.

(** First pass, one requirement string. *)
Definition collect_requirement (allDependencies : list (string * Z))
    (requirement : string) : list (string * Z) :=
  match parseRequirement requirement with
  | Some parsed => track_maximum allDependencies parsed
  | None => allDependencies
  end.

(** First pass: the maximum level demanded of every prerequisite. *)
Definition first_pass (sdef : StructureDefinition) (range : list Z)
  : list (string * Z) :=
  foldl (fun allDependencies lvl =>
           match levels sdef !! lvl with
           | None => allDependencies
           | Some levelData =>
               foldl collect_requirement allDependencies (requirements levelData)
           end) [] range.

Definition add_individual (result : AggregateResult) (entry : string * Qc)
  : AggregateResult :=
  mkResult (add_cost (individualCosts result) entry.1 entry.2)
           (dependencyCosts result)
           (add_cost (totalCosts result) entry.1 entry.2)
           (dependencies result)
           (individualTimes result) (dependencyTimes result) (totalTime result).

Definition add_upgrade_time (result : AggregateResult) (upgradeTime : Qc)
  : AggregateResult :=
  mkResult (individualCosts result) (dependencyCosts result) (totalCosts result)
           (dependencies result)
           (individualTimes result + upgradeTime)%Qc
           (dependencyTimes result)
           (totalTime result + upgradeTime)%Qc.

(** Second pass, one level. *)
Definition second_pass_level (speedMultiplier : Qc) (levelData : LevelData)
    (result : AggregateResult) : AggregateResult :=
  let result := foldl add_individual result (map_to_list (costs levelData)) in
  if decide (upgrade_time levelData = 0%Qc) then result
  else add_upgrade_time result (upgrade_time levelData / (1 + speedMultiplier))%Qc.

(** Second pass: the structure's own costs and time. *)
Definition second_pass (sdef : StructureDefinition) (range : list Z)
    (speedMultiplier : Qc) (result : AggregateResult) : AggregateResult :=
  foldl (fun result lvl =>
           match levels sdef !! lvl with
           | None => result
           | Some levelData => second_pass_level speedMultiplier levelData result
           end) result range.

Definition add_dependency_cost (result : AggregateResult) (entry : string * Qc)
  : AggregateResult :=
  mkResult (individualCosts result)
           (add_cost (dependencyCosts result) entry.1 entry.2)
           (add_cost (totalCosts result) entry.1 entry.2)
           (dependencies result)
           (individualTimes result) (dependencyTimes result) (totalTime result).

(** Third pass, the body that charges one resolved dependency. *)
Definition charge (result : AggregateResult) (depStructure : string)
    (maxLevel : Z) (depResult : AggregateResult) : AggregateResult :=
  let result := foldl add_dependency_cost result
                      (map_to_list (totalCosts depResult)) in
  mkResult (individualCosts result) (dependencyCosts result) (totalCosts result)
           (dependencies result
              ++ [mkDependency depStructure maxLevel
                               (totalCosts depResult) (totalTime depResult)])
           (individualTimes result)
           (dependencyTimes result + totalTime depResult)%Qc
           (totalTime result + totalTime depResult)%Qc.

Section Aggregator.

Variable constructionSpeedBonus : Qc.
Variable structuresData : gmap string StructureDefinition.
Variable currentLevels : gmap string Z.

(** The recursive call: structure, target level, current level. *)
Variable recurse : string -> Z -> option Z -> State -> option (AggregateResult * State).

(** Third pass over the entries of [allDependencies]. *)
Fixpoint third_pass (entries : list (string * Z)) (result : AggregateResult)
    (st : State) : option (AggregateResult * State) :=
  match entries with
  | [] => Some (result, st)
  | (depStructure, maxLevel) :: rest =>
      let depCurrentLevel := level_or_1 currentLevels depStructure in
      if depCurrentLevel <? maxLevel then
        let depKey := make_depKey depStructure maxLevel in
        if decide (depKey ∈ visited st) then third_pass rest result st
        else
          match recurse depStructure maxLevel (Some depCurrentLevel)
                        (visit depKey st) with
          | None => None
          | Some (depResult, st') =>
              third_pass rest (charge result depStructure maxLevel depResult)
                         (record_push depStructure maxLevel st')
          end
      else third_pass rest result st
  end.

Definition calc_body (structure : string) (targetLevel : Z)
    (currentLevel : option Z) (st : State) : option (AggregateResult * State) :=
  let currentLevel := resolve_level currentLevels structure currentLevel in
  let result := empty_result in
  match structuresData !! structure with
  | None => Some (result, st)
  | Some sdef =>
      if targetLevel <=? currentLevel then Some (result, st)
      else
        let speedMultiplier := (constructionSpeedBonus / Qc_of_Z 100)%Qc in
        let range := seqZ (currentLevel + 1) (targetLevel - currentLevel) in
        let allDependencies := first_pass sdef range in
        let result := second_pass sdef range speedMultiplier result in
        third_pass (Object_entries allDependencies) result st
  end.

End Aggregator.

(** The function with its recursion depth bounded by [fuel]. *)
Fixpoint calc (fuel : nat) (constructionSpeedBonus : Qc)
    (structuresData : gmap string StructureDefinition)
    (currentLevels : gmap string Z)
    (structure : string) (targetLevel : Z) (currentLevel : option Z)
    (st : State) : option (AggregateResult * State) :=
  match fuel with
  | O => None
  | S fuel' =>
      calc_body constructionSpeedBonus structuresData currentLevels
                (calc fuel' constructionSpeedBonus structuresData currentLevels)
                structure targetLevel currentLevel st
  end.

(** ** buildDependencyTree *)

#[warnings="-register-all"]
Inductive Tree := Node {
  tree_structure : string;
  tree_currentLevel : Z;
  tree_targetLevel : Z;
  tree_costs : gmap string Qc;
  tree_time : Qc;
  tree_children : list Tree
}.

Definition tree_add_cost (tree : Tree) (entry : string * Qc) : Tree :=
  Node (tree_structure tree) (tree_currentLevel tree) (tree_targetLevel tree)
       (add_cost (tree_costs tree) entry.1 entry.2)
       (tree_time tree) (tree_children tree).

Definition tree_add_time (tree : Tree) (adjustedTime : Qc) : Tree :=
  Node (tree_structure tree) (tree_currentLevel tree) (tree_targetLevel tree)
       (tree_costs tree) (tree_time tree + adjustedTime)%Qc (tree_children tree).

Definition tree_push_child (tree : Tree) (childTree : Tree) : Tree :=
  Node (tree_structure tree) (tree_currentLevel tree) (tree_targetLevel tree)
       (tree_costs tree) (tree_time tree) (tree_children tree ++ [childTree]).

(** [tree.children.some(child => child.structure === parsed.structure &&
    child.targetLevel === parsed.level)] *)
Definition alreadyExists (tree : Tree) (parsed : Requirement) : bool :=
  existsb (fun child =>
             bool_decide (tree_structure child = req_structure parsed)
             && bool_decide (tree_targetLevel child = req_level parsed))
          (tree_children tree).

Section TreeBuilder.

Variable structuresData : gmap string StructureDefinition.
Variable currentLevels : gmap string Z.
Variable constructionSpeedBonus : Qc.

(** The recursive call: structure, target level, current level, visited. *)
Variable recurse : string -> Z -> option Z -> gset string -> option Tree.

(** The loop over the requirement strings of one level. *)
Fixpoint tree_requirements (visited : gset string) (reqs : list string)
    (tree : Tree) : option Tree :=
  match reqs with
  | [] => Some tree
  | requirement :: rest =>
      match parseRequirement requirement with
      | None => tree_requirements visited rest tree
      | Some parsed =>
          let depCurrentLevel := level_or_1 currentLevels (req_structure parsed) in
          if depCurrentLevel <? req_level parsed then
            if alreadyExists tree parsed then tree_requirements visited rest tree
            else
              (* the argument is [new Set(visited)], a copy *)
              match recurse (req_structure parsed) (req_level parsed)
                            (Some depCurrentLevel) visited with
              | None => None
              | Some childTree =>
                  tree_requirements visited rest (tree_push_child tree childTree)
              end
          else tree_requirements visited rest tree
      end
  end.

(** The body of the loop over the levels. *)
Definition tree_level (structure : string) (visited : gset string)
    (speedMultiplier : Qc) (lvl : Z) (tree : Tree) : option Tree :=
  match structuresData !! structure with
  | None => Some tree
  | Some sdef =>
      match levels sdef !! lvl with
      | None => Some tree
      | Some levelData =>
          let tree := foldl tree_add_cost tree (map_to_list (costs levelData)) in
          let tree :=
            if decide (upgrade_time levelData = 0%Qc) then tree
            else tree_add_time tree
                   (upgrade_time levelData / (1 + speedMultiplier))%Qc in
          tree_requirements visited (requirements levelData) tree
      end
  end.

Fixpoint tree_levels (structure : string) (visited : gset string)
    (speedMultiplier : Qc) (range : list Z) (tree : Tree) : option Tree :=
  match range with
  | [] => Some tree
  | lvl :: range' =>
      match tree_level structure visited speedMultiplier lvl tree with
      | None => None
      | Some tree => tree_levels structure visited speedMultiplier range' tree
      end
  end.

Definition tree_body (structure : string) (targetLevel : Z)
    (currentLevel : option Z) (visited : gset string) : option Tree :=
  let currentLevel := resolve_level currentLevels structure currentLevel in
  let tree := Node structure currentLevel targetLevel ∅ 0%Qc [] in
  if targetLevel <=? currentLevel then Some tree
  else
    let speedMultiplier := (constructionSpeedBonus / Qc_of_Z 100)%Qc in
    tree_levels structure visited speedMultiplier
                (seqZ (currentLevel + 1) (targetLevel - currentLevel)) tree.

End TreeBuilder.

(** The function with its recursion depth bounded by [fuel]; on a cyclic
    database the program does not return, and no fuel is enough. *)
Fixpoint buildDependencyTree (fuel : nat) (structure : string) (targetLevel : Z)
    (currentLevel : option Z)
    (structuresData : gmap string StructureDefinition)
    (currentLevels : gmap string Z) (constructionSpeedBonus : Qc)
    (visited : gset string) : option Tree :=
  match fuel with
  | O => None
  | S fuel' =>
      tree_body structuresData currentLevels constructionSpeedBonus
                (fun s t c v =>
                   buildDependencyTree fuel' s t c structuresData currentLevels
                                       constructionSpeedBonus v)
                structure targetLevel currentLevel visited
  end.

(** ** Fuel that is always enough for the aggregator

    Every recursive call is preceded by the insertion of a key that was not
    in [visited], and every key comes from a requirement string of the
    database: the depth of the recursion is bounded by the number of such
    keys not yet visited. *)

Definition level_demands (levelData : LevelData) : list Requirement :=
  omap parseRequirement (requirements levelData).

Definition requirement_key (parsed : Requirement) : string :=
  make_depKey (req_structure parsed) (req_level parsed).

Definition structure_demands (sdef : StructureDefinition) : list Requirement :=
  (map_to_list (levels sdef)).*2 ≫= level_demands.

Definition all_keys (structuresData : gmap string StructureDefinition)
  : gset string :=
  list_to_set (requirement_key <$>
                 ((map_to_list structuresData).*2 ≫= structure_demands)).

Definition enough_fuel (structuresData : gmap string StructureDefinition)
    (visited : gset string) : nat :=
  S (size (all_keys structuresData ∖ visited)).

(** The function as the program exports it, with the state it leaves
    behind (the parameter [visitedLevels] is never used and is left out). *)
Definition calculateResourcesRecursive (structure : string) (targetLevel : Z)
    (currentLevel : option Z) (constructionSpeedBonus : Qc)
    (structuresData : gmap string StructureDefinition)
    (currentLevels : gmap string Z) (visited : gset string)
  : AggregateResult * State :=
  match calc (enough_fuel structuresData visited) constructionSpeedBonus
             structuresData currentLevels structure targetLevel currentLevel
             (mkState visited []) with
  | Some out => out
  | None => (empty_result, mkState visited [])
  end.

(** ** Vocabulary of the statements *)

(** The levels a call walks: those above the current level, up to the
    target, that the database defines. *)
Definition levels_in_range (structuresData : gmap string StructureDefinition)
    (structure : string) (currentLevel targetLevel : Z) : list LevelData :=
  match structuresData !! structure with
  | None => []
  | Some sdef =>
      omap (fun lvl => levels sdef !! lvl)
           (seqZ (currentLevel + 1) (targetLevel - currentLevel))
  end.

(** Lookup with a missing key counting as 0. *)
Definition amount (m : gmap string Qc) (resource : string) : Qc :=
  default 0%Qc (m !! resource).

Definition sum_Qc (l : list Qc) : Qc := foldr Qcplus 0%Qc l.

Definition dep_pair (d : Dependency) : string * Z := (dep_name d, dep_level d).

Definition pair_key (p : string * Z) : string := make_depKey p.1 p.2.

(** Every node of a tree satisfies [P]. *)
Fixpoint tree_all (P : Tree -> Prop) (t : Tree) : Prop :=
  P t /\ (fix all (l : list Tree) : Prop :=
            match l with
            | [] => True
            | c :: l' => tree_all P c /\ all l'
            end) (tree_children t).

Definition child_pair (t : Tree) : string * Z := (tree_structure t, tree_targetLevel t).

Definition distinct_children (t : Tree) : Prop :=
  NoDup (child_pair <$> tree_children t).

(** The formatter as the specification words it, on whole seconds. *)
Definition format_spec (n : Z) : string :=
  let d := n / 86400 in
  let h := (n mod 86400) / 3600 in
  let m := (n mod 3600) / 60 in
  let s := n mod 60 in
  let components :=
    ([(d, "d"); (h, "h"); (m, "m")]
     ++ (if (d =? 0) && (h =? 0) then [(s, "s")] else [])) in
  match filter (fun c => c.1 <> 0) components with
  | [] => "0s"
  | shown => join " " ((fun c => Z_to_string c.1 +:+ c.2) <$> shown)
  end.

(** The pattern of the specification, read on the whole string:
    [Level <digits> <rest-of-string>]. *)
Definition whole_string_pattern (s : string) (parsed : Requirement) : Prop :=
  exists digits spaces,
    s = "Level " +:+ digits +:+ spaces +:+ req_structure parsed
    /\ digits <> "" /\ all_digits digits = true
    /\ spaces <> "" /\ all_spaces spaces = true
    /\ req_structure parsed <> ""
    /\ req_level parsed = parseInt digits.

(** What the regular expression accepts: the pattern somewhere in the
    string, the name running up to the end of the line. *)
Definition found_pattern (s : string) (parsed : Requirement) : Prop :=
  exists before digits spaces after,
    s = before +:+ "Level " +:+ digits +:+ spaces +:+ req_structure parsed +:+ after
    /\ digits <> "" /\ all_digits digits = true
    /\ spaces <> "" /\ all_spaces spaces = true
    /\ req_structure parsed <> ""
    /\ no_line_terminator (req_structure parsed) = true
    /\ match after with
       | String c _ => is_line_terminator c = true
       | EmptyString => True
       end
    /\ req_level parsed = parseInt digits.

(** The least the regular expression needs: the word, digits, white space
    and one character that is not a line terminator. *)
Definition contains_pattern (s : string) : Prop :=
  exists before digits spaces c after,
    s = before +:+ "Level " +:+ digits +:+ spaces +:+ String c after
    /\ digits <> "" /\ all_digits digits = true
    /\ spaces <> "" /\ all_spaces spaces = true
    /\ is_line_terminator c = false.

(** A name as the database writes it: it starts with a character that is
    not white space and has no line terminator. *)
Definition plain_name (name : string) : Prop :=
  match name with
  | String c _ => is_space c = false
  | EmptyString => False
  end
  /\ no_line_terminator name = true.

(** ** Databases of the scenarios *)

(** The end-to-end scenario of the specification. *)
Definition mineDB : gmap string StructureDefinition :=
  {[ "Mine" := mkStructure
       {[ 1 := mkLevelData ∅ 0%Qc [];
          2 := mkLevelData {[ "metal" := Qc_of_Z 100 ]} (Qc_of_Z 60) ["Level 1 Warehouse"];
          3 := mkLevelData {[ "metal" := Qc_of_Z 200 ]} (Qc_of_Z 120) ["Level 2 Warehouse"] ]};
     "Warehouse" := mkStructure
       {[ 1 := mkLevelData ∅ 0%Qc [];
          2 := mkLevelData {[ "wood" := Qc_of_Z 50 ]} (Qc_of_Z 30) [] ]} ]}.

Definition mineLevels : gmap string Z := {[ "Mine" := 1; "Warehouse" := 1 ]}.


(** B is demanded by C and by D, two different children of A. *)
Definition branchDB : gmap string StructureDefinition :=
  {[ "A" := mkStructure
       {[ 2 := mkLevelData ∅ 0%Qc ["Level 2 C"; "Level 2 D"] ]};
     "B" := mkStructure {[ 2 := mkLevelData {[ "b" := Qc_of_Z 10 ]} (Qc_of_Z 10) [] ]};
     "C" := mkStructure {[ 2 := mkLevelData ∅ 0%Qc ["Level 2 B"] ]};
     "D" := mkStructure {[ 2 := mkLevelData ∅ 0%Qc ["Level 2 B"] ]} ]}.

(** The requirements a call reads in its first pass, parsed, in order. *)
Definition demands (structuresData : gmap string StructureDefinition)
    (structure : string) (currentLevel targetLevel : Z) : list Requirement :=
  levels_in_range structuresData structure currentLevel targetLevel
    ≫= level_demands.

(** [o] holds, for the requirements [ds] read so far, every demanded
    structure once, at the highest level demanded of it. *)
Definition tracks (o : list (string * Z)) (ds : list Requirement) : Prop :=
  NoDup o.*1
  /\ (forall q, q ∈ ds -> req_structure q ∈ o.*1)
  /\ forall k v, (k, v) ∈ o ->
       mkRequirement k v ∈ ds
       /\ forall q, q ∈ ds -> req_structure q = k -> req_level q <= v.


(** A run from [st] to [st'] appended [new]: every entry under a key that
    was not visited before, no key twice, and exactly these keys were added
    to [visited]. *)
Definition appends_fresh (st st' : State) (new : list (string * Z)) : Prop :=
  appended st' = appended st ++ new
  /\ visited st' = visited st ∪ list_to_set (pair_key <$> new)
  /\ NoDup (pair_key <$> new)
  /\ forall p, p ∈ new -> pair_key p ∉ visited st.

(** Results with every rational replaced by its reduced fraction: two
    results with the same view are equal. *)
Definition dep_view (d : Dependency) : string * Z * gmap string Q * Q :=
  (dep_name d, dep_level d, this <$> dep_resources d, this (dep_time d)).

Definition result_view (r : AggregateResult) :=
  (this <$> individualCosts r, this <$> dependencyCosts r,
   this <$> totalCosts r, dep_view <$> dependencies r,
   this (individualTimes r), this (dependencyTimes r), this (totalTime r)).

(** The data model's promise about build times. *)
Definition nonneg_times (structuresData : gmap string StructureDefinition) : Prop :=
  forall structure sdef lvl levelData,
    structuresData !! structure = Some sdef ->
    levels sdef !! lvl = Some levelData ->
    (0 <= upgrade_time levelData)%Qc.

(** [1 + speedMultiplier], what every upgrade time is divided by. *)
Definition speed_divisor (constructionSpeedBonus : Qc) : Qc :=
  (1 + constructionSpeedBonus / Qc_of_Z 100)%Qc.

(** Two results of the same call under two bonuses: the costs, and the
    names, levels and resources of the listed prerequisites, are equal; the
    times are related by [R]. *)
Definition alike_entries (R : Qc -> Qc -> Prop) (d2 d1 : Dependency) : Prop :=
  dep_name d2 = dep_name d1 /\ dep_level d2 = dep_level d1
  /\ dep_resources d2 = dep_resources d1 /\ R (dep_time d2) (dep_time d1).

Definition alike (R : Qc -> Qc -> Prop) (r2 r1 : AggregateResult) : Prop :=
  individualCosts r2 = individualCosts r1
  /\ dependencyCosts r2 = dependencyCosts r1
  /\ totalCosts r2 = totalCosts r1
  /\ R (individualTimes r2) (individualTimes r1)
  /\ R (dependencyTimes r2) (dependencyTimes r1)
  /\ R (totalTime r2) (totalTime r1)
  /\ Forall2 (alike_entries R) (dependencies r2) (dependencies r1).

(** What the recursive calls return: a node for the structure and the level
    asked for, without repeated children anywhere. *)
Definition returns_distinct
    (rec : string -> Z -> option Z -> gset string -> option Tree) : Prop :=
  forall s t c v child,
    rec s t c v = Some child ->
    child_pair child = (s, t) /\ tree_all distinct_children child.

(** Case analysis on a lookup in a table written out entry by entry. *)
Ltac in_table H tac :=
  repeat (apply lookup_insert_Some in H as [[_ <-]|[_ H]]; [tac|]);
  apply lookup_singleton_Some in H as [_ <-]; tac.

(** ** Vocabulary of the further properties *)

(** The loop [for (let [resource, amount] of Object.entries(...))] on one
    of the cost maps. *)
Definition add_entries (m : gmap string Qc) (entries : list (string * Qc))
  : gmap string Qc :=
  foldl (fun m entry => add_cost m entry.1 entry.2) m entries.

(** The data model's promise about costs. *)
Definition nonneg_costs (structuresData : gmap string StructureDefinition) : Prop :=
  forall structure sdef lvl levelData resource a,
    structuresData !! structure = Some sdef ->
    levels sdef !! lvl = Some levelData ->
    costs levelData !! resource = Some a ->
    (0 <= a)%Qc.

Definition nonneg_map (m : gmap string Qc) : Prop :=
  forall resource, (0 <= amount m resource)%Qc.

Definition nonneg_result (r : AggregateResult) : Prop :=
  nonneg_map (individualCosts r) /\ nonneg_map (dependencyCosts r)
  /\ nonneg_map (totalCosts r)
  /\ (0 <= individualTimes r)%Qc /\ (0 <= dependencyTimes r)%Qc
  /\ (0 <= totalTime r)%Qc
  /\ Forall (fun d => nonneg_map (dep_resources d) /\ (0 <= dep_time d)%Qc)
            (dependencies r).

(** The dependency totals are the sums over the listed entries. *)
Definition listed_sums (r : AggregateResult) : Prop :=
  (forall resource,
      amount (dependencyCosts r) resource
      = sum_Qc ((fun d => amount (dep_resources d) resource) <$> dependencies r))
  /\ dependencyTimes r = sum_Qc (dep_time <$> dependencies r).


(** A parsed requirement that asks for more than the current level. *)
Definition unmet (currentLevels : gmap string Z) (q : Requirement) : Prop :=
  level_or_1 currentLevels (req_structure q) < req_level q.

Definition req_pair (q : Requirement) : string * Z :=
  (req_structure q, req_level q).

(** Level [lvl] of [structure] lists a requirement [q] that asks for more
    than the current level of its structure. *)
Definition asks (structuresData : gmap string StructureDefinition)
    (currentLevels : gmap string Z) (structure : string) (lvl : Z)
    (q : Requirement) : Prop :=
  exists sdef levelData,
    structuresData !! structure = Some sdef
    /\ levels sdef !! lvl = Some levelData
    /\ q ∈ level_demands levelData
    /\ unmet currentLevels q.


(** A needs B and B needs A. *)
Definition cycleDB : gmap string StructureDefinition :=
  {[ "A" := mkStructure {[ 2 := mkLevelData ∅ 0%Qc ["Level 2 B"] ]};
     "B" := mkStructure {[ 2 := mkLevelData ∅ 0%Qc ["Level 2 A"] ]} ]}.

(** ** The page: updateLevel

    The built-in [parseInt(value)] without a radix: leading white space is
    skipped, then a sign, then [0x] or [0X] (which selects base 16), and the
    longest run of digits of the base is read; without a digit the result is
    [NaN], here [None].  [-0] is [0]. *)

Definition hex_value (c : ascii) : option Z :=
  let n := Z.of_N (code c) in
  if is_digit c then Some (n - 48)
  else if (97 <=? n) && (n <=? 102) then Some (n - 87)
  else if (65 <=? n) && (n <=? 70) then Some (n - 55)
  else None.

Definition is_hex_digit (c : ascii) : bool :=
  match hex_value c with Some _ => true | None => false end.

Fixpoint parseHex_from (acc : Z) (s : string) : Z :=
  match s with
  | String c s' => parseHex_from (16 * acc + default 0 (hex_value c)) s'
  | EmptyString => acc
  end.

Definition strip_sign (s : string) : Z * string :=
  match s with
  | String c s' =>
      if Ascii.eqb c "-" then (-1, s')
      else if Ascii.eqb c "+" then (1, s')
      else (1, s)
  | EmptyString => (1, s)
  end.

Definition js_parseInt (value : string) : option Z :=
  let trimmed := drop_str (run_length is_space value) value in
  let '(sign, body) := strip_sign trimmed in
  if String.prefix "0x" body || String.prefix "0X" body then
    let body := drop_str 2 body in
    let digits := take_str (run_length is_hex_digit body) body in
    if decide (digits = "") then None
    else Some (sign * parseHex_from 0 digits)
  else
    let digits := take_str (run_length is_digit body) body in
    if decide (digits = "") then None
    else Some (sign * parseInt digits).

(** [updateLevel(structure, value)] of the page, with the globals
    [structuresData] and [currentLevels] as arguments and the new
    [currentLevels] as result; [None] is the TypeError of reading [levels]
    of a structure that is not in the database.  [saveLevels] writes the
    levels to the local storage and changes nothing here. *)
Definition updateLevel (structuresData : gmap string StructureDefinition)
    (currentLevels : gmap string Z) (structure value : string)
  : option (gmap string Z) :=
  let numValue :=
    match js_parseInt value with
    | Some 0 | None => 1
    | Some n => n
    end in
  match structuresData !! structure with
  | None => None
  | Some sdef =>
      let maxLevel := Z.of_nat (size (levels sdef)) in
      let clampedValue := Z.max 1 (Z.min maxLevel numValue) in
      Some (<[structure := clampedValue]> currentLevels)
  end.

(** What may follow a numeral: nothing, or a character that is not a
    digit. *)
Definition stops_number (rest : string) : Prop :=
  match rest with
  | String c _ => is_digit c = false
  | EmptyString => True
  end.

(** * Facts about the program *)

(** ** The recursion and its fuel *)

Section Fuel.

Variable bonus : Qc.
Variable db : gmap string StructureDefinition.
Variable lv : gmap string Z.

Lemma third_pass_mono rec1 rec2 :
  (forall s t c st x, rec1 s t c st = Some x -> rec2 s t c st = Some x) ->
  forall entries result st x,
    third_pass lv rec1 entries result st = Some x ->
    third_pass lv rec2 entries result st = Some x.
Proof.
  intros Hrec. induction entries as [|[dep maxLevel] rest IH]; simpl; [done|].
  intros result st x. destruct (_ <? _); [|apply IH].
  destruct (decide _); [apply IH|].
  destruct (rec1 _ _ _ _) as [[depResult st']|] eqn:E; [|done].
  rewrite (Hrec _ _ _ _ _ E). apply IH.
Qed.

Lemma calc_mono n m s t c st x :
  (n <= m)%nat ->
  calc n bonus db lv s t c st = Some x -> calc m bonus db lv s t c st = Some x.
Proof.
  revert m s t c st x. induction n as [|n IH]; intros m s t c st x Hle; [done|].
  destruct m as [|m]; [lia|]. simpl. unfold calc_body.
  destruct (db !! s); [|done]. destruct (_ <=? _); [done|].
  apply third_pass_mono. intros. apply IH; [lia|done].
Qed.

End Fuel.

(** ** Digits *)

Lemma all_chars_take p k s :
  (k <= run_length p s)%nat -> all_chars p (take_str k s) = true.
Proof.
  revert s. induction k as [|k IH]; intros [|c s]; simpl; try done.
  destruct (p c) eqn:E; [|lia]. intros ?. rewrite IH; [done|lia].
Qed.

Lemma digit_value_nonneg c : is_digit c = true -> 0 <= digit_value c <= 9.
Proof.
  unfold is_digit, digit_value. intros [H1 H2]%andb_prop.
  apply N.leb_le in H1, H2. lia.
Qed.

Lemma parseInt_from_nonneg s acc :
  all_digits s = true -> 0 <= acc -> 0 <= parseInt_from acc s.
Proof.
  revert acc. induction s as [|c s IH]; simpl; intros acc H Hacc; [done|].
  apply andb_prop in H as [Hc Hs]. apply IH; [done|].
  pose proof (digit_value_nonneg c Hc). lia.
Qed.

Lemma match_digits_inv k s d n :
  match_digits k s = Some (d, n) ->
  exists k', (1 <= k' <= k)%nat /\ d = take_str k' s
    /\ match_spaces (run_length is_space (drop_str k' s)) (drop_str k' s) = Some n.
Proof.
  induction k as [|k IH]; simpl; [done|].
  destruct (match_spaces _ _) as [name|] eqn:E.
  - intros [= <- <-]. exists (S k). split; [lia|done].
  - intros H. destruct (IH H) as (k' & ? & ? & ?). exists k'. split; [lia|done].
Qed.

Lemma match_here_digits s d n :
  match_here s = Some (d, n) -> all_digits d = true.
Proof.
  unfold match_here. destruct (String.prefix _ _); [|done].
  intros (k' & Hk & -> & _)%match_digits_inv. apply all_chars_take. lia.
Qed.

Lemma regex_match_digits s d n :
  regex_match s = Some (d, n) -> all_digits d = true.
Proof.
  induction s as [|c s IH]; cbn [regex_match].
  - destruct (match_here "") as [m|] eqn:E; [|done].
    intros [= ->]. eapply match_here_digits, E.
  - destruct (match_here (String c s)) as [m|] eqn:E; [|done].
    intros [= ->]. eapply match_here_digits, E.
Qed.

Lemma parseRequirement_level_nonneg s parsed :
  parseRequirement s = Some parsed -> 0 <= req_level parsed.
Proof.
  unfold parseRequirement. destruct (regex_match s) as [[d n]|] eqn:E; [|done].
  intros [= <-]. simpl. apply parseInt_from_nonneg; [|done].
  eapply regex_match_digits, E.
Qed.

Lemma level_demands_nonneg levelData q :
  q ∈ level_demands levelData -> 0 <= req_level q.
Proof.
  unfold level_demands. intros (r & _ & H)%list_elem_of_omap.
  eapply parseRequirement_level_nonneg, H.
Qed.

(** ** The object [allDependencies] *)

Lemma obj_get_None o k : obj_get o k = None <-> k ∉ o.*1.
Proof.
  induction o as [|[k' v'] o IH]; csimpl.
  - split; [intros _; apply not_elem_of_nil|done].
  - destruct (decide (k = k')) as [->|Hne].
    + split; [done|]. intros []. left.
    + rewrite IH, not_elem_of_cons. naive_solver.
Qed.

Lemma obj_get_Some o k v : obj_get o k = Some v -> (k, v) ∈ o.
Proof.
  induction o as [|[k' v'] o IH]; csimpl; [done|].
  destruct (decide (k = k')) as [->|Hne].
  - intros [= ->]. left.
  - intros H. right. auto.
Qed.

Lemma obj_get_elem o k v : NoDup o.*1 -> (k, v) ∈ o -> obj_get o k = Some v.
Proof.
  induction o as [|[k' v'] o IH]; csimpl.
  - intros _ []%elem_of_nil.
  - intros [Hk Ho]%NoDup_cons [[= -> ->]|Hin]%elem_of_cons.
    + by rewrite decide_True.
    + rewrite decide_False; [auto|]. intros ->. apply Hk.
      apply list_elem_of_fmap. by exists (k', v).
Qed.

Lemma obj_set_keys o k v :
  (obj_set o k v).*1 = if decide (k ∈ o.*1) then o.*1 else o.*1 ++ [k].
Proof.
  induction o as [|[k' v'] o IH]; csimpl.
  - done.
  - destruct (decide (k = k')) as [->|Hne]; csimpl.
    + rewrite decide_True; [done|left].
    + rewrite IH. destruct (decide (k ∈ o.*1)) as [Hin|Hin].
      * rewrite decide_True; [done|by right].
      * rewrite decide_False; [done|]. rewrite not_elem_of_cons. done.
Qed.

Lemma obj_set_NoDup o k v : NoDup o.*1 -> NoDup (obj_set o k v).*1.
Proof.
  intros H. rewrite obj_set_keys. destruct (decide _); [done|].
  apply NoDup_app. split_and!; [done| |apply NoDup_singleton].
  intros x Hx ->%list_elem_of_singleton. done.
Qed.

Lemma elem_of_obj_set o k v k' v' :
  NoDup o.*1 ->
  (k', v') ∈ obj_set o k v <-> (k' = k /\ v' = v) \/ (k' <> k /\ (k', v') ∈ o).
Proof.
  induction o as [|[k0 v0] o IH]; csimpl.
  - intros _. rewrite list_elem_of_singleton. split.
    + intros [= -> ->]. by left.
    + intros [[-> ->]|[_ []%elem_of_nil]]. done.
  - intros [Hk Ho]%NoDup_cons. destruct (decide (k = k0)) as [->|Hne].
    + rewrite !elem_of_cons. split.
      * intros [[= -> ->]|Hin]; [by left|]. right. split; [|by right].
        intros ->. apply Hk, list_elem_of_fmap. by exists (k0, v').
      * intros [[-> ->]|[Hne [[= -> ->]|Hin]]]; [by left|done|by right].
    + rewrite !elem_of_cons, (IH Ho). split.
      * intros [[= -> ->]|[[-> ->]|[? ?]]]; [right|left|right]; try done.
        -- split; [done|by left].
        -- split; [done|by right].
      * intros [[-> ->]|[? [[= -> ->]|Hin]]]; [right; by left|by left|].
        right. by right.
Qed.

Lemma tracks_nil : tracks [] [].
Proof.
  split_and!; [apply NoDup_nil_2|by intros ? ?%elem_of_nil|by intros ?? ?%elem_of_nil].
Qed.

Lemma tracks_set o ds q :
  tracks o ds ->
  (forall q', q' ∈ ds -> req_structure q' = req_structure q ->
              req_level q' <= req_level q) ->
  tracks (obj_set o (req_structure q) (req_level q)) (ds ++ [q]).
Proof.
  intros (Hnd & Hall & Hmax) Hq. split_and!.
  - by apply obj_set_NoDup.
  - intros q' [Hin| ->%list_elem_of_singleton]%elem_of_app; rewrite obj_set_keys;
      destruct (decide _) as [Hk|Hk]; auto.
    + apply elem_of_app. left. auto.
    + apply elem_of_app. right. left.
  - intros k v Hin0.
    apply elem_of_obj_set in Hin0 as [[-> ->]|[Hne Hin]]; [| |done].
    + split; [apply elem_of_app; right; destruct q; left|].
      intros q' [Hin| ->%list_elem_of_singleton]%elem_of_app Hk; [auto|lia].
    + destruct (Hmax _ _ Hin) as [H1 H2]. split; [apply elem_of_app; by left|].
      intros q' [Hin'| ->%list_elem_of_singleton]%elem_of_app Hk; [auto|done].
Qed.

Lemma tracks_keep o ds q v :
  tracks o ds -> obj_get o (req_structure q) = Some v -> req_level q <= v ->
  tracks o (ds ++ [q]).
Proof.
  intros (Hnd & Hall & Hmax) Hget Hle. split_and!; [done| |].
  - intros q' [Hin| ->%list_elem_of_singleton]%elem_of_app; [auto|].
    apply obj_get_Some in Hget. apply list_elem_of_fmap. by eexists (_, _).
  - intros k v' Hin. destruct (Hmax _ _ Hin) as [H1 H2].
    split; [apply elem_of_app; by left|].
    intros q' [Hin'| ->%list_elem_of_singleton]%elem_of_app Hk; [auto|].
    subst k. rewrite (obj_get_elem _ _ _ Hnd Hin) in Hget. by injection Hget as ->.
Qed.

Lemma tracks_step o ds q :
  tracks o ds -> 0 <= req_level q -> tracks (track_maximum o q) (ds ++ [q]).
Proof.
  intros Ht Hq. unfold track_maximum.
  destruct (obj_get o (req_structure q)) as [known|] eqn:Hget.
  - assert (Hknown : forall q', q' ∈ ds -> req_structure q' = req_structure q ->
                                 req_level q' <= known).
    { destruct Ht as (_ & _ & Hmax).
      apply obj_get_Some in Hget. by destruct (Hmax _ _ Hget). }
    assert (known < req_level q \/ known = 0 ->
            tracks (obj_set o (req_structure q) (req_level q)) (ds ++ [q])) as Hset.
    { intros Hlt. apply tracks_set; [done|]. intros q' Hin Hk.
      specialize (Hknown q' Hin Hk). lia. }
    destruct known as [|p|p].
    + apply Hset. by right.
    + destruct (Z.ltb_spec (Z.pos p) (req_level q)); [apply Hset; by left|].
      by eapply tracks_keep.
    + destruct (Z.ltb_spec (Z.neg p) (req_level q)); [apply Hset; by left|].
      by eapply tracks_keep.
  - apply tracks_set; [done|]. intros q' Hin Hk. exfalso.
    destruct Ht as (_ & Hall & _). apply obj_get_None in Hget. apply Hget.
    rewrite <- Hk. auto.
Qed.

Lemma tracks_foldl ds2 : forall o ds1,
  tracks o ds1 -> (forall q, q ∈ ds2 -> 0 <= req_level q) ->
  tracks (foldl track_maximum o ds2) (ds1 ++ ds2).
Proof.
  induction ds2 as [|q ds2 IH]; simpl; intros o ds1 Ht Hpos.
  - by rewrite app_nil_r.
  - rewrite (assoc_L (++) ds1 [q] ds2 : ds1 ++ q :: ds2 = (ds1 ++ [q]) ++ ds2).
    apply IH; [|intros; apply Hpos; by right].
    apply tracks_step; [done|]. apply Hpos. left.
Qed.

Lemma collect_requirements_flat reqs : forall o,
  foldl collect_requirement o reqs
  = foldl track_maximum o (omap parseRequirement reqs).
Proof.
  induction reqs as [|r reqs IH]; simpl; intros o; [done|].
  unfold collect_requirement at 2. destruct (parseRequirement r); simpl; apply IH.
Qed.

Lemma first_pass_flat sdef range :
  first_pass sdef range
  = foldl track_maximum []
          (omap (fun lvl => levels sdef !! lvl) range ≫= level_demands).
Proof.
  unfold first_pass. generalize (@nil (string * Z)) as o.
  induction range as [|lvl range IH]; simpl; intros o; [done|].
  destruct (levels sdef !! lvl) as [ld|]; simpl; [|apply IH].
  rewrite foldl_app, IH. f_equal. apply collect_requirements_flat.
Qed.

Lemma Object_entries_perm o : Object_entries o ≡ₚ o.
Proof.
  unfold Object_entries. rewrite merge_sort_Permutation.
  apply filter_app_complement.
Qed.

Lemma first_pass_tracks db structure sdef currentLevel targetLevel :
  db !! structure = Some sdef ->
  tracks (first_pass sdef (seqZ (currentLevel + 1) (targetLevel - currentLevel)))
         (demands db structure currentLevel targetLevel).
Proof.
  intros Hs. rewrite first_pass_flat. unfold demands, levels_in_range. rewrite Hs.
  apply (tracks_foldl _ [] []); [apply tracks_nil|].
  intros q (ld & Hq & _)%list_elem_of_bind. by eapply level_demands_nonneg.
Qed.

Lemma demands_all_keys db structure currentLevel targetLevel q :
  q ∈ demands db structure currentLevel targetLevel ->
  requirement_key q ∈ all_keys db.
Proof.
  unfold demands, levels_in_range, all_keys.
  destruct (db !! structure) as [sdef|] eqn:Hs.
  - intros (ld & Hq & (lvl & _ & Hld)%list_elem_of_omap)%list_elem_of_bind.
    apply elem_of_list_to_set, list_elem_of_fmap. exists q. split; [done|].
    apply list_elem_of_bind. exists sdef. split.
    + apply list_elem_of_bind. exists ld. split; [done|].
      apply list_elem_of_fmap. exists (lvl, ld). split; [done|].
      by apply elem_of_map_to_list.
    + apply list_elem_of_fmap. exists (structure, sdef). split; [done|].
      by apply elem_of_map_to_list.
  - by intros (? & _ & ?%elem_of_nil)%list_elem_of_bind.
Qed.

Section Termination.

Variable bonus : Qc.
Variable db : gmap string StructureDefinition.
Variable lv : gmap string Z.

Lemma third_pass_total (K : gset string) n rec :
  (forall s t c st, (size (K ∖ visited st) < n)%nat ->
     exists r st', rec s t c st = Some (r, st') /\ visited st ⊆ visited st') ->
  forall entries result st,
    (forall e, e ∈ entries -> pair_key e ∈ K) ->
    (size (K ∖ visited st) < S n)%nat ->
    exists r st', third_pass lv rec entries result st = Some (r, st')
                  /\ visited st ⊆ visited st'.
Proof.
  intros Hrec. induction entries as [|[dep maxLevel] rest IH];
    intros result st HK Hsize; simpl.
  - by exists result, st.
  - assert (HKrest : forall e, e ∈ rest -> pair_key e ∈ K).
    { intros e He. apply HK. by right. }
    destruct (_ <? _); [|by apply IH].
    destruct (decide _) as [Hin|Hnew]; [by apply IH|].
    destruct (Hrec dep maxLevel (Some (level_or_1 lv dep))
                   (visit (make_depKey dep maxLevel) st))
      as (depResult & st1 & -> & Hsub).
    { assert (K ∖ visited (visit (make_depKey dep maxLevel) st)
              ⊂ K ∖ visited st) as Hlt%subset_size; [|lia].
      assert (make_depKey dep maxLevel ∈ K) by (apply (HK (dep, maxLevel)); left).
      simpl. set_solver. }
    simpl in Hsub.
    destruct (IH (charge result dep maxLevel depResult)
                 (record_push dep maxLevel st1) HKrest)
      as (r & st' & -> & Hsub').
    { simpl. assert (K ∖ visited st1 ⊆ K ∖ visited st) as Hle%subseteq_size;
        [set_solver|lia]. }
    exists r, st'. split; [done|]. simpl in Hsub'. set_solver.
Qed.

Lemma calc_total n : forall s t c st,
  (size (all_keys db ∖ visited st) < n)%nat ->
  exists r st', calc n bonus db lv s t c st = Some (r, st')
                /\ visited st ⊆ visited st'.
Proof.
  induction n as [|n IH]; intros s t c st Hsize; [lia|].
  simpl. unfold calc_body.
  destruct (db !! s) as [sdef|] eqn:Hs; [|by exists empty_result, st].
  destruct (_ <=? _); [by exists empty_result, st|].
  apply (third_pass_total (all_keys db) n); [done| |lia].
  intros [k v] Hin. rewrite Object_entries_perm in Hin.
  edestruct (first_pass_tracks db s sdef) as (_ & _ & Hmax); [done|].
  destruct (Hmax _ _ Hin) as [Hd _].
  by apply demands_all_keys in Hd.
Qed.

(** With [enough_fuel] the recursion returns, and more fuel changes
    nothing. *)
Lemma calc_enough_fuel s t c v fuel :
  (enough_fuel db v <= fuel)%nat ->
  calc fuel bonus db lv s t c (mkState v [])
  = Some (calculateResourcesRecursive s t c bonus db lv v).
Proof.
  intros Hle. unfold calculateResourcesRecursive.
  destruct (calc_total (enough_fuel db v) s t c (mkState v []))
    as (r & st' & E & _); [unfold enough_fuel; simpl; lia|].
  rewrite E. by eapply calc_mono.
Qed.

End Termination.

(** ** The additive relationship *)

Lemma amount_add_cost m k a r :
  amount (add_cost m k a) r
  = (amount m r + (if decide (r = k) then a else 0))%Qc.
Proof.
  unfold amount, add_cost. destruct (decide (r = k)) as [->|Hne].
  - by rewrite lookup_insert_eq.
  - rewrite lookup_insert_ne by done. ring.
Qed.










(** ** Entries appended to [dependencies] *)

Lemma foldl_add_dependency_cost_fields es : forall r,
  let r' := foldl add_dependency_cost r es in
  individualCosts r' = individualCosts r /\ dependencies r' = dependencies r
  /\ individualTimes r' = individualTimes r
  /\ dependencyTimes r' = dependencyTimes r /\ totalTime r' = totalTime r.
Proof.
  induction es as [|e es IH]; simpl; intros r; [done|].
  destruct (IH (add_dependency_cost r e)) as (-> & -> & -> & -> & ->). done.
Qed.

Lemma foldl_add_individual_fields es : forall r,
  let r' := foldl add_individual r es in
  dependencyCosts r' = dependencyCosts r /\ dependencies r' = dependencies r
  /\ individualTimes r' = individualTimes r
  /\ dependencyTimes r' = dependencyTimes r /\ totalTime r' = totalTime r.
Proof.
  induction es as [|e es IH]; simpl; intros r; [done|].
  destruct (IH (add_individual r e)) as (-> & -> & -> & -> & ->). done.
Qed.

Lemma dependencies_charge r dep maxLevel depResult :
  dependencies (charge r dep maxLevel depResult)
  = dependencies r
    ++ [mkDependency dep maxLevel (totalCosts depResult) (totalTime depResult)].
Proof.
  unfold charge. simpl.
  by destruct (foldl_add_dependency_cost_fields
                 (map_to_list (totalCosts depResult)) r) as (_ & -> & _).
Qed.

Lemma dependencies_second_pass sdef range speed r :
  dependencies (second_pass sdef range speed r) = dependencies r.
Proof.
  unfold second_pass. revert r. induction range as [|lvl range IH]; simpl; [done|].
  intros r. rewrite IH. destruct (levels sdef !! lvl) as [ld|]; [|done].
  unfold second_pass_level.
  destruct (foldl_add_individual_fields (map_to_list (costs ld)) r)
    as (_ & Hd & _).
  by destruct (decide _).
Qed.

(** The third pass appends entries for a sublist of the entries of
    [allDependencies], each for a structure below the demanded level. *)
Lemma third_pass_dependencies lv rec entries : forall result st r st',
  third_pass lv rec entries result st = Some (r, st') ->
  exists sub,
    sub `sublist_of` entries
    /\ dep_pair <$> dependencies r = (dep_pair <$> dependencies result) ++ sub
    /\ forall p, p ∈ sub -> level_or_1 lv p.1 < p.2.
Proof.
  induction entries as [|[dep maxLevel] rest IH]; simpl; intros result st r st'.
  - intros [= <- _]. exists []. rewrite app_nil_r. split_and!; [done..|].
    by intros ? ?%elem_of_nil.
  - assert (forall result st,
      third_pass lv rec rest result st = Some (r, st') ->
      exists sub, sub `sublist_of` (dep, maxLevel) :: rest
        /\ dep_pair <$> dependencies r = (dep_pair <$> dependencies result) ++ sub
        /\ forall p, p ∈ sub -> level_or_1 lv p.1 < p.2) as Hskip.
    { intros result0 st0 (sub & ? & ? & ?)%IH. exists sub.
      split_and!; [by apply sublist_cons|done..]. }
    destruct (Z.ltb_spec (level_or_1 lv dep) maxLevel) as [Hlt|]; [|apply Hskip].
    destruct (decide _); [apply Hskip|].
    destruct (rec _ _ _ _) as [[depResult st1]|]; [|done].
    intros (sub & Hsub & Hdeps & Hup)%IH. exists ((dep, maxLevel) :: sub).
    split_and!; [by apply sublist_skip| |].
    + rewrite Hdeps, dependencies_charge, fmap_app. simpl.
      by rewrite <- app_assoc.
    + intros p [->|Hp]%elem_of_cons; [done|auto].
Qed.

(** ** The record of appended entries *)

Lemma appends_fresh_nil st : appends_fresh st st [].
Proof.
  split_and!; simpl; [by rewrite app_nil_r|set_solver|apply NoDup_nil_2|].
  by intros ? ?%elem_of_nil.
Qed.

Lemma third_pass_appends lv rec entries :
  (forall s t c st r st', rec s t c st = Some (r, st') ->
                          exists new, appends_fresh st st' new) ->
  forall result st r st',
    third_pass lv rec entries result st = Some (r, st') ->
    exists new sub,
      appends_fresh st st' new
      /\ dep_pair <$> dependencies r = (dep_pair <$> dependencies result) ++ sub
      /\ sub `sublist_of` new.
Proof.
  intros Hrec.
  induction entries as [|[dep maxLevel] rest IH]; simpl; intros result st r st'.
  - intros [= <- <-]. exists [], []. rewrite app_nil_r.
    split_and!; [apply appends_fresh_nil|done..].
  - destruct (_ <? _); [|apply IH].
    destruct (decide _) as [|Hnew]; [apply IH|].
    destruct (rec _ _ _ _) as [[depResult st1]|] eqn:Erec; [|done].
    destruct (Hrec _ _ _ _ _ _ Erec) as (new1 & Happ1 & Hvis1 & Hnd1 & Hfresh1).
    intros (new2 & sub2 & (Happ2 & Hvis2 & Hnd2 & Hfresh2) & Hdeps & Hsub)%IH.
    simpl in Happ1, Hvis1, Hfresh1, Happ2, Hvis2, Hfresh2.
    exists (new1 ++ (dep, maxLevel) :: new2), ((dep, maxLevel) :: sub2).
    split_and!.
    + split_and!.
      * rewrite Happ2, Happ1, <- !app_assoc. done.
      * rewrite Hvis2, Hvis1, fmap_app, fmap_cons, list_to_set_app_L. simpl.
        set_solver.
      * rewrite fmap_app, fmap_cons. apply NoDup_app. split_and!; [done| |].
        -- intros x (p & -> & Hp)%list_elem_of_fmap.
           intros [Heq|(p' & Heq & Hp')%list_elem_of_fmap]%elem_of_cons.
           ++ apply (Hfresh1 p Hp). rewrite Heq. set_solver.
           ++ apply (Hfresh2 p' Hp'). rewrite Hvis1, <- Heq.
              apply elem_of_union_r, elem_of_list_to_set, list_elem_of_fmap.
              by exists p.
        -- apply NoDup_cons. split; [|done].
           intros (p' & Heq & Hp')%list_elem_of_fmap.
           apply (Hfresh2 p' Hp'). rewrite Hvis1, <- Heq. unfold pair_key. simpl.
           set_solver.
      * intros p [Hp|[->|Hp]%elem_of_cons]%elem_of_app.
        -- intros Hin. apply (Hfresh1 p Hp). set_solver.
        -- done.
        -- intros Hin. apply (Hfresh2 p Hp). rewrite Hvis1. set_solver.
    + rewrite Hdeps, dependencies_charge, fmap_app. simpl.
      by rewrite <- app_assoc.
    + apply sublist_inserts_l. by apply sublist_skip.
Qed.

Lemma calc_appends fuel bonus db lv : forall s t c st r st',
  calc fuel bonus db lv s t c st = Some (r, st') ->
  exists new, appends_fresh st st' new
              /\ dep_pair <$> dependencies r `sublist_of` new.
Proof.
  induction fuel as [|fuel IH]; intros s t c st r st'; [done|].
  simpl. unfold calc_body.
  assert (exists new, appends_fresh st st new
                      /\ dep_pair <$> dependencies empty_result `sublist_of` new).
  { exists []. split; [apply appends_fresh_nil|done]. }
  destruct (db !! s) as [sdef|]; [|by intros [= <- <-]].
  destruct (_ <=? _); [by intros [= <- <-]|].
  intros (new & sub & Hnew & Hdeps & Hsub)%third_pass_appends.
  - exists new. split; [done|]. by rewrite Hdeps, dependencies_second_pass.
  - intros ?????? (new & ? & _)%IH. by exists new.
Qed.

(** ** Prerequisites at their maximum level *)

(** After the third pass every entry that needs an upgrade has its key in
    [visited]. *)
Lemma third_pass_visits lv rec entries :
  (forall s t c st r st', rec s t c st = Some (r, st') ->
                          visited st ⊆ visited st') ->
  forall result st r st',
    third_pass lv rec entries result st = Some (r, st') ->
    visited st ⊆ visited st'
    /\ forall p, p ∈ entries -> level_or_1 lv p.1 < p.2 ->
                  pair_key p ∈ visited st'.
Proof.
  intros Hrec.
  induction entries as [|[dep maxLevel] rest IH]; simpl; intros result st r st'.
  - intros [= _ <-]. split; [done|]. by intros ? ?%elem_of_nil.
  - destruct (Z.ltb_spec (level_or_1 lv dep) maxLevel) as [Hlt|Hge].
    + destruct (decide _) as [Hin|Hnew].
      * intros [Hsub Hrest]%IH. split; [done|].
        intros p [->|Hp]%elem_of_cons ?; [by apply Hsub|by apply Hrest].
      * destruct (rec _ _ _ _) as [[depResult st1]|] eqn:Erec; [|done].
        apply Hrec in Erec. simpl in Erec.
        intros [Hsub Hrest]%IH. simpl in Hsub. split; [set_solver|].
        intros p [->|Hp]%elem_of_cons ?; [|by apply Hrest].
        apply Hsub, Erec. unfold pair_key. simpl. set_solver.
    + intros [Hsub Hrest]%IH. split; [done|].
      intros p [->|Hp]%elem_of_cons ?; [simpl in *; lia|by apply Hrest].
Qed.

Lemma calc_dependencies fuel bonus db lv s t c st r st' :
  calc fuel bonus db lv s t c st = Some (r, st') ->
  exists o,
    tracks o (demands db s (resolve_level lv s c) t)
    /\ dep_pair <$> dependencies r `sublist_of` Object_entries o
    /\ (forall p, p ∈ dep_pair <$> dependencies r -> level_or_1 lv p.1 < p.2)
    /\ forall p, p ∈ o -> level_or_1 lv p.1 < p.2 -> pair_key p ∈ visited st'.
Proof.
  destruct fuel as [|fuel]; [done|]. simpl. unfold calc_body.
  fold (resolve_level lv s c). unfold demands, levels_in_range.
  destruct (db !! s) as [sdef|] eqn:Hs.
  - destruct (Z.leb_spec t (resolve_level lv s c)) as [Hle|Hlt].
    + intros [= <- _]. exists []. rewrite seqZ_nil by lia.
      split_and!; [apply tracks_nil|apply sublist_nil_l|..];
        by intros ? ?%elem_of_nil.
    + intros E.
      pose proof (third_pass_dependencies _ _ _ _ _ _ _ E)
        as (sub & Hsub & Hdeps & Hup).
      apply third_pass_visits in E as [_ Hvis].
      2:{ intros ?????? (new & (_ & -> & _) & _)%calc_appends. set_solver. }
      rewrite dependencies_second_pass in Hdeps. simpl in Hdeps. subst sub.
      eexists. split_and!; [|exact Hsub|exact Hup|].
      * pose proof (first_pass_tracks db s sdef (resolve_level lv s c) t Hs) as Ht.
        unfold demands, levels_in_range in Ht. by rewrite Hs in Ht.
      * intros p Hp. apply Hvis. by rewrite Object_entries_perm.
  - intros [= <- _]. exists [].
    split_and!; [apply tracks_nil|apply sublist_nil_l|..];
      by intros ? ?%elem_of_nil.
Qed.

(** ** The tree builder without work to do *)

Lemma tree_levels_absent db lv rec structure visited speed range tree :
  db !! structure = None ->
  tree_levels db lv rec structure visited speed range tree = Some tree.
Proof.
  intros Hs. induction range as [|lvl range IH]; simpl; [done|].
  unfold tree_level. by rewrite Hs.
Qed.

(** ** Equality of results through their views *)

#[local] Instance this_inj : Inj (=) (=) this.
Proof. intros x y. apply Qc_decomp. Qed.

#[local] Instance dep_view_inj : Inj (=) (=) dep_view.
Proof.
  intros [n1 l1 r1 t1] [n2 l2 r2 t2]. unfold dep_view. simpl.
  intros [= -> -> ?%(inj _) ?%(inj _)]. by subst.
Qed.

Lemma result_view_inj : Inj (=) (=) result_view.
Proof.
  intros [a1 b1 c1 d1 e1 f1 g1] [a2 b2 c2 d2 e2 f2 g2]. unfold result_view. simpl.
  intros [= ?%(inj _) ?%(inj _) ?%(inj _) ?%(inj _) ?%(inj _) ?%(inj _) ?%(inj _)].
  by subst.
Qed.

(** ** The tree builder *)

Lemma tree_all_unfold P t :
  tree_all P t <-> P t /\ Forall (tree_all P) (tree_children t).
Proof.
  destruct t as [s c tl co ti ch]. simpl.
  assert ((fix all (l : list Tree) : Prop :=
             match l with
             | [] => True
             | c0 :: l' => tree_all P c0 /\ all l'
             end) ch <-> Forall (tree_all P) ch) as ->; [|done].
  induction ch as [|c0 ch IH]; [by split|].
  rewrite Forall_cons, IH. done.
Qed.

Lemma alreadyExists_false tree parsed :
  alreadyExists tree parsed = false ->
  (req_structure parsed, req_level parsed) ∉ child_pair <$> tree_children tree.
Proof.
  unfold alreadyExists. intros Hex (child & [= Hs Hl] & Hin)%list_elem_of_fmap.
  assert (existsb (fun child =>
            bool_decide (tree_structure child = req_structure parsed)
            && bool_decide (tree_targetLevel child = req_level parsed))
            (tree_children tree) = true) as Htrue; [|congruence].
  apply existsb_exists. exists child. split; [by apply list_elem_of_In|].
  rewrite !bool_decide_eq_true_2; done.
Qed.

Section TreeFacts.

Variable db : gmap string StructureDefinition.
Variable lv : gmap string Z.
Variable bonus : Qc.

Lemma tree_requirements_visited rec v1 v2 reqs :
  (forall s t c va vb, rec s t c va = rec s t c vb) ->
  forall tree,
    tree_requirements lv rec v1 reqs tree = tree_requirements lv rec v2 reqs tree.
Proof.
  intros Hrec. induction reqs as [|req reqs IH]; simpl; intros tree; [done|].
  destruct (parseRequirement req) as [parsed|]; [|done].
  destruct (_ <? _); [|done]. destruct (alreadyExists _ _); [done|].
  rewrite (Hrec _ _ _ v1 v2). by destruct (rec _ _ _ _).
Qed.

Lemma tree_levels_visited rec s v1 v2 speed range :
  (forall s t c va vb, rec s t c va = rec s t c vb) ->
  forall tree,
    tree_levels db lv rec s v1 speed range tree
    = tree_levels db lv rec s v2 speed range tree.
Proof.
  intros Hrec. induction range as [|lvl range IH]; simpl; intros tree; [done|].
  assert (tree_level db lv rec s v1 speed lvl tree
          = tree_level db lv rec s v2 speed lvl tree) as ->.
  { unfold tree_level. destruct (db !! s) as [sdef|]; [|done].
    destruct (levels sdef !! lvl); [|done].
    by apply tree_requirements_visited. }
  by destruct (tree_level _ _ _ _ _ _ _ _).
Qed.

Lemma tree_requirements_distinct rec v reqs :
  returns_distinct rec ->
  forall tree tree',
    tree_all distinct_children tree ->
    tree_requirements lv rec v reqs tree = Some tree' ->
    child_pair tree' = child_pair tree /\ tree_all distinct_children tree'.
Proof.
  intros Hrec. induction reqs as [|req reqs IH]; simpl; intros tree tree' Hgood.
  - by intros [= <-].
  - destruct (parseRequirement req) as [parsed|]; [|by apply IH].
    destruct (_ <? _); [|by apply IH].
    destruct (alreadyExists tree parsed) eqn:Hex; [by apply IH|].
    destruct (rec _ _ _ _) as [child|] eqn:Erec; [|done].
    destruct (Hrec _ _ _ _ _ Erec) as [Hpair Hchild].
    intros Hrest. apply IH in Hrest; [done|].
    apply tree_all_unfold in Hgood as [Hnd Hch]. apply tree_all_unfold. split.
    + unfold distinct_children. simpl. rewrite fmap_app. simpl.
      apply NoDup_app. split_and!; [done| |apply NoDup_singleton].
      intros x Hx ->%list_elem_of_singleton. rewrite Hpair in Hx.
      by apply alreadyExists_false in Hex.
    + simpl. apply Forall_app. split; [done|]. by apply Forall_singleton.
Qed.

Lemma tree_add_costs_distinct es : forall tree,
  tree_all distinct_children tree ->
  let tree' := foldl tree_add_cost tree es in
  child_pair tree' = child_pair tree /\ tree_all distinct_children tree'.
Proof.
  induction es as [|e es IH]; simpl; intros tree Hgood; [done|].
  destruct (IH (tree_add_cost tree e)) as [-> ?]; [|done].
  apply tree_all_unfold in Hgood as [? ?]. by apply tree_all_unfold.
Qed.

Lemma tree_levels_distinct rec s v speed range :
  returns_distinct rec ->
  forall tree tree',
    tree_all distinct_children tree ->
    tree_levels db lv rec s v speed range tree = Some tree' ->
    child_pair tree' = child_pair tree /\ tree_all distinct_children tree'.
Proof.
  intros Hrec. induction range as [|lvl range IH]; simpl; intros tree tree' Hgood.
  - by intros [= <-].
  - destruct (tree_level _ _ _ _ _ _ _ _) as [tree1|] eqn:E; [|done].
    assert (child_pair tree1 = child_pair tree
            /\ tree_all distinct_children tree1) as [<- Hgood1].
    { unfold tree_level in E. destruct (db !! s) as [sdef|]; [|by injection E as <-].
      destruct (levels sdef !! lvl) as [ld|]; [|by injection E as <-].
      destruct (tree_add_costs_distinct (map_to_list (costs ld)) tree Hgood)
        as [Hp Hg].
      set (t0 := foldl tree_add_cost tree (map_to_list (costs ld))) in *.
      assert (exists t1, child_pair t1 = child_pair tree
                         /\ tree_all distinct_children t1
                         /\ tree_requirements lv rec v (requirements ld) t1
                            = Some tree1) as (t1 & Hp1 & Hg1 & E1).
      { destruct (decide _); [by exists t0|]. eexists. split_and!; [|
          |exact E]; [done|].
        apply tree_all_unfold in Hg as [? ?]. by apply tree_all_unfold. }
      rewrite <- Hp1. by eapply tree_requirements_distinct. }
    by apply IH.
Qed.

Lemma buildDependencyTree_visited fuel : forall s t c v1 v2,
  buildDependencyTree fuel s t c db lv bonus v1
  = buildDependencyTree fuel s t c db lv bonus v2.
Proof.
  induction fuel as [|fuel IH]; intros s t c v1 v2; [done|].
  simpl. unfold tree_body. destruct (_ <=? _); [done|].
  apply tree_levels_visited. intros. apply IH.
Qed.

Lemma buildDependencyTree_distinct fuel :
  returns_distinct (fun s t c v => buildDependencyTree fuel s t c db lv bonus v).
Proof.
  induction fuel as [|fuel IH]; intros s t c v tree; [done|].
  simpl. unfold tree_body.
  assert (tree_all distinct_children
            (Node s (resolve_level lv s c) t ∅ 0%Qc [])) as Hleaf.
  { apply tree_all_unfold. split; [apply NoDup_nil_2|apply Forall_nil_2]. }
  fold (resolve_level lv s c). destruct (_ <=? _); [by intros [= <-]|].
  intros E. by apply (tree_levels_distinct _ _ _ _ _ IH _ _ Hleaf) in E.
Qed.

End TreeFacts.

(** ** Rounding and remainders *)

Lemma this_div (x y : Qc) : (this (x / y)%Qc == this x / this y)%Q.
Proof.
  unfold Qcdiv, Qcmult, Qcinv, Qdiv. simpl. by rewrite !Qred_correct.
Qed.

Lemma this_minus (x y : Qc) : (this (x - y)%Qc == this x - this y)%Q.
Proof.
  unfold Qcminus, Qcplus, Qcopp, Qminus. simpl. by rewrite !Qred_correct.
Qed.

Lemma floor_nonneg (x : Qc) : (0 <= x)%Qc -> 0 <= floor x.
Proof. intros H. apply (Qfloor_resp_le 0 x H). Qed.

Lemma floor_div (x : Qc) m : 0 < m -> floor (x / Qc_of_Z m) = floor x / m.
Proof.
  intros Hm. unfold floor. rewrite (Qfloor_comp _ _ (this_div _ _)). simpl.
  destruct (this x) as [a b]. destruct m as [|p|p]; try lia.
  unfold Qdiv, Qinv, Qmult, Qfloor. simpl.
  rewrite Z.mul_1_r, Pos2Z.inj_mul, Z.div_div; lia.
Qed.

Lemma floor_minus_Z (x : Qc) k : floor (x - Qc_of_Z k) = floor x - k.
Proof.
  unfold floor. rewrite (Qfloor_comp _ _ (this_minus _ _)). simpl.
  destruct (this x) as [a b]. unfold Qminus, Qplus, Qopp, Qfloor. simpl.
  rewrite Z.mul_1_r, Pos.mul_1_r.
  replace (a + - k * Z.pos b) with (a + (- k) * Z.pos b) by lia.
  rewrite Z.div_add; lia.
Qed.

Lemma div_nonneg (x : Qc) m : (0 <= x)%Qc -> 0 < m -> Qle_bool 0 (x / Qc_of_Z m)%Qc = true.
Proof.
  intros Hx Hm. apply Qle_bool_iff. rewrite this_div. simpl.
  apply Qmult_le_0_compat; [done|]. apply Qinv_le_0_compat.
  unfold Qle. simpl. lia.
Qed.

(** [seconds % m] for a non-negative number and a positive integer. *)
Lemma js_rem_nonneg (x : Qc) m :
  (0 <= x)%Qc -> 0 < m ->
  js_rem x (Qc_of_Z m) = (x - Qc_of_Z (m * (floor x / m)))%Qc.
Proof.
  intros Hx Hm. unfold js_rem, trunc. rewrite div_nonneg by done.
  fold (floor (x / Qc_of_Z m)). by rewrite floor_div, Z2Qc_inj_mul.
Qed.

Lemma floor_rem (x : Qc) m :
  (0 <= x)%Qc -> 0 < m -> floor (js_rem x (Qc_of_Z m)) = floor x mod m.
Proof.
  intros Hx Hm. rewrite js_rem_nonneg, floor_minus_Z, Z.mod_eq by (done || lia). done.
Qed.

Lemma floor_rem_div (x : Qc) m k :
  (0 <= x)%Qc -> 0 < m -> 0 < k ->
  floor (js_rem x (Qc_of_Z m) / Qc_of_Z k) = (floor x mod m) / k.
Proof. intros Hx Hm Hk. by rewrite floor_div, floor_rem. Qed.

(** The chain of [push] statements lists the non-zero components. *)
Lemma format_parts d h m s :
  0 <= d -> 0 <= h -> 0 <= m -> 0 <= s ->
  (let parts :=
     push_if ((0 <? s) && (d =? 0) && (h =? 0)) (Z_to_string s +:+ "s")
       (push_if (0 <? m) (Z_to_string m +:+ "m")
          (push_if (0 <? h) (Z_to_string h +:+ "h")
             (push_if (0 <? d) (Z_to_string d +:+ "d") []))) in
   match parts with
   | [] => "0s"
   | _ => join " " parts
   end)
  = match filter (fun c : Z * string => c.1 <> 0)
                 ([(d, "d"); (h, "h"); (m, "m")]
                  ++ (if (d =? 0) && (h =? 0) then [(s, "s")] else [])) with
    | [] => "0s"
    | shown => join " " ((fun c => Z_to_string c.1 +:+ c.2) <$> shown)
    end.
Proof.
  intros Hd Hh Hm Hs.
  destruct d as [|d|d], h as [|h|h], m as [|m|m], s as [|s|s]; try lia;
    reflexivity.
Qed.

(** ** The regular expression *)

Lemma append_cons c a b : String c a +:+ b = String c (a +:+ b).
Proof. reflexivity. Qed.

Lemma append_nil s : "" +:+ s = s.
Proof. reflexivity. Qed.

Lemma append_assoc a b c : (a +:+ b) +:+ c = a +:+ (b +:+ c).
Proof.
  induction a as [|x a IH]; [done|]. rewrite !append_cons. by rewrite IH.
Qed.

Lemma take_drop_str n s : take_str n s +:+ drop_str n s = s.
Proof.
  revert s. induction n as [|n IH]; intros [|c s]; try done.
  simpl. rewrite append_cons. by rewrite IH.
Qed.

Lemma drop_str_app a b : drop_str (String.length a) (a +:+ b) = b.
Proof. induction a as [|x a IH]; [by destruct b|done]. Qed.

Lemma take_str_app a b : take_str (String.length a) (a +:+ b) = a.
Proof.
  induction a as [|x a IH]; [by destruct b|].
  rewrite append_cons. simpl. by rewrite IH.
Qed.

Lemma take_str_length s : take_str (String.length s) s = s.
Proof. induction s as [|c s IH]; [done|]. simpl. by rewrite IH. Qed.

Lemma take_str_nonempty p k s :
  (1 <= k <= run_length p s)%nat -> take_str k s <> "".
Proof. destruct k, s; simpl; try lia; done. Qed.

Lemma run_length_stops p s :
  match drop_str (run_length p s) s with
  | String c _ => p c = false
  | EmptyString => True
  end.
Proof.
  induction s as [|c s IH]; simpl; [done|]. by destruct (p c) eqn:E.
Qed.

Lemma run_length_app p a b :
  all_chars p a = true ->
  run_length p (a +:+ b) = (String.length a + run_length p b)%nat.
Proof.
  induction a as [|x a IH]; [done|]. rewrite append_cons. simpl.
  intros [-> Ha]%andb_prop. by rewrite IH.
Qed.

Lemma run_length_all p a : all_chars p a = true -> run_length p a = String.length a.
Proof.
  induction a as [|x a IH]; [done|]. simpl. intros [-> Ha]%andb_prop. by rewrite IH.
Qed.

Lemma prefix_append a s :
  String.prefix a s = true -> s = a +:+ drop_str (String.length a) s.
Proof.
  revert a. induction s as [|c s IH]; intros [|x a]; simpl; try done.
  destruct (ascii_dec x c) as [->|]; [|done].
  intros H. rewrite append_cons. by rewrite <- IH.
Qed.

Lemma prefix_of_append a b : String.prefix a (a +:+ b) = true.
Proof.
  induction a as [|x a IH]; [by destruct b|]. rewrite append_cons. simpl.
  by destruct (ascii_dec x x).
Qed.

Lemma space_not_digit c : is_space c = true -> is_digit c = false.
Proof. destruct c as [[] [] [] [] [] [] [] []]; by vm_compute. Qed.

(** What [(.+)] captures. *)
Lemma match_name_inv s name :
  match_name s = Some name ->
  exists after,
    s = name +:+ after /\ name <> "" /\ no_line_terminator name = true
    /\ match after with
       | String c _ => is_line_terminator c = true
       | EmptyString => True
       end.
Proof.
  unfold match_name.
  pose proof (run_length_stops (fun c => negb (is_line_terminator c)) s) as Hstop.
  destruct (run_length _ s) as [|n] eqn:E; [done|]. intros [= <-].
  change (match s with
          | "" => ""
          | String c s' => String c (take_str n s')
          end) with (take_str (S n) s).
  exists (drop_str (S n) s). split_and!.
  - by rewrite take_drop_str.
  - eapply take_str_nonempty. rewrite E. lia.
  - apply all_chars_take. lia.
  - destruct (drop_str (S n) s); [done|]. by apply negb_false_iff.
Qed.

Lemma match_name_plain c s : is_line_terminator c = false ->
  is_Some (match_name (String c s)).
Proof. unfold match_name. simpl. intros ->. by eexists. Qed.

Lemma match_spaces_inv j s name :
  match_spaces j s = Some name ->
  exists j', (1 <= j' <= j)%nat /\ match_name (drop_str j' s) = Some name.
Proof.
  induction j as [|j IH]; [done|]. cbn [match_spaces].
  destruct (match_name (drop_str (S j) s)) as [n|] eqn:E.
  - intros [= <-]. exists (S j). split; [lia|done].
  - intros (j' & ? & ?)%IH. exists j'. split; [lia|done].
Qed.

Lemma match_spaces_complete j j' s :
  (1 <= j' <= j)%nat -> is_Some (match_name (drop_str j' s)) ->
  is_Some (match_spaces j s).
Proof.
  induction j as [|j IH]; [lia|]. intros Hj Hname. cbn [match_spaces].
  destruct (match_name (drop_str (S j) s)) as [n|] eqn:E; [by eexists|].
  apply IH; [|done]. destruct (decide (j' = S j)) as [->|]; [|lia].
  rewrite E in Hname. by destruct Hname.
Qed.

(** A match at the start of [s]. *)
Lemma match_here_inv s digits name :
  match_here s = Some (digits, name) ->
  exists spaces after,
    s = "Level " +:+ digits +:+ spaces +:+ name +:+ after
    /\ digits <> "" /\ all_digits digits = true
    /\ spaces <> "" /\ all_spaces spaces = true
    /\ name <> "" /\ no_line_terminator name = true
    /\ match after with
       | String c _ => is_line_terminator c = true
       | EmptyString => True
       end.
Proof.
  unfold match_here. destruct (String.prefix _ _) eqn:Hp; [|done].
  apply prefix_append in Hp. set (rest := drop_str 6 s) in *.
  intros (k & Hk & -> & Hs)%match_digits_inv.
  apply match_spaces_inv in Hs as (j & Hj & Hn).
  apply match_name_inv in Hn as (after & Hrest & ? & ? & ?).
  exists (take_str j (drop_str k rest)), after. split_and!; try done.
  - rewrite Hp at 1. change (drop_str (String.length "Level ") s) with rest.
    f_equal. by rewrite <- Hrest, !take_drop_str.
  - by eapply take_str_nonempty.
  - apply all_chars_take. lia.
  - by eapply take_str_nonempty.
  - apply all_chars_take. lia.
Qed.

Lemma match_here_complete digits spaces c after :
  digits <> "" -> all_digits digits = true ->
  spaces <> "" -> all_spaces spaces = true ->
  is_line_terminator c = false ->
  is_Some (match_here ("Level " +:+ digits +:+ spaces +:+ String c after)).
Proof.
  intros Hd Hdig Hs Hsp Hc. unfold match_here.
  rewrite prefix_of_append. rewrite (drop_str_app "Level ").
  set (rest := digits +:+ spaces +:+ String c after).
  assert (run_length is_digit rest = String.length digits) as ->.
  { unfold rest. rewrite run_length_app by done.
    destruct spaces as [|w spaces]; [done|]. rewrite append_cons. simpl.
    simpl in Hsp. apply andb_prop in Hsp as [Hw _].
    rewrite (space_not_digit w Hw). lia. }
  destruct (String.length digits) as [|k] eqn:Hlen; [by destruct digits|].
  cbn [match_digits]. rewrite <- Hlen. unfold rest. rewrite drop_str_app.
  destruct (match_spaces_complete
              (run_length is_space (spaces +:+ String c after))
              (String.length spaces) (spaces +:+ String c after))
    as [name ->]; [| |by eexists].
  - rewrite run_length_app by done. destruct spaces; [done|]. simpl. lia.
  - rewrite drop_str_app. by apply match_name_plain.
Qed.

(** A match of the requirement in the form the database writes it. *)
Lemma match_here_plain digits spaces name :
  digits <> "" -> all_digits digits = true ->
  spaces <> "" -> all_spaces spaces = true ->
  plain_name name ->
  match_here ("Level " +:+ digits +:+ spaces +:+ name) = Some (digits, name).
Proof.
  intros Hd Hdig Hs Hsp [Hfirst Hname]. unfold match_here.
  rewrite prefix_of_append. rewrite (drop_str_app "Level ").
  set (rest := digits +:+ spaces +:+ name).
  assert (run_length is_digit rest = String.length digits) as ->.
  { unfold rest. rewrite run_length_app by done.
    destruct spaces as [|w spaces]; [done|]. rewrite append_cons. simpl.
    simpl in Hsp. apply andb_prop in Hsp as [Hw _].
    rewrite (space_not_digit w Hw). lia. }
  destruct (String.length digits) as [|k] eqn:Hlen; [by destruct digits|].
  cbn [match_digits]. rewrite <- Hlen. unfold rest.
  rewrite drop_str_app, take_str_app.
  assert (run_length is_space (spaces +:+ name) = String.length spaces) as ->.
  { rewrite run_length_app by done. destruct name as [|c name]; [done|].
    simpl. rewrite Hfirst. lia. }
  destruct (String.length spaces) as [|j] eqn:Hlen'; [by destruct spaces|].
  cbn [match_spaces]. rewrite <- Hlen', drop_str_app.
  unfold match_name. rewrite run_length_all by done.
  destruct name as [|c name]; [done|].
  cbn [String.length]. cbv iota beta.
  change (S (String.length name)) with (String.length (String c name)).
  by rewrite take_str_length.
Qed.

Lemma regex_match_here s m : match_here s = Some m -> regex_match s = Some m.
Proof. intros H. destruct s; cbn [regex_match]; by rewrite H. Qed.

Lemma regex_match_inv s digits name :
  regex_match s = Some (digits, name) ->
  exists before rest, s = before +:+ rest /\ match_here rest = Some (digits, name).
Proof.
  induction s as [|c s IH]; cbn [regex_match].
  - destruct (match_here "") as [m|] eqn:E; [|done].
    intros [= ->]. by exists "", "".
  - destruct (match_here (String c s)) as [m|] eqn:E.
    + intros [= ->]. by exists "", (String c s).
    + intros (before & rest & -> & ?)%IH. by exists (String c before), rest.
Qed.

Lemma regex_match_complete before rest :
  is_Some (match_here rest) -> is_Some (regex_match (before +:+ rest)).
Proof.
  intros [m Hm]. induction before as [|c before IH].
  - exists m. by apply regex_match_here.
  - rewrite append_cons. cbn [regex_match].
    by destruct (match_here (String c (before +:+ rest))).
Qed.

Lemma parseRequirement_found s parsed :
  parseRequirement s = Some parsed -> found_pattern s parsed.
Proof.
  unfold parseRequirement.
  destruct (regex_match s) as [[digits name]|] eqn:E; [|done]. intros [= <-].
  apply regex_match_inv in E as (before & rest & -> & Hhere).
  apply match_here_inv in Hhere
    as (spaces & after & -> & ? & ? & ? & ? & ? & ? & ?).
  by exists before, digits, spaces, after.
Qed.

Lemma found_contains s parsed : found_pattern s parsed -> contains_pattern s.
Proof.
  intros (before & digits & spaces & after & -> & ? & ? & ? & ? & Hne & Hname & _).
  destruct (req_structure parsed) as [|c name]; [done|].
  simpl in Hname. apply andb_prop in Hname as [Hc%negb_true_iff _].
  by exists before, digits, spaces, c, (name +:+ after).
Qed.

Lemma contains_parsed s : contains_pattern s -> is_Some (parseRequirement s).
Proof.
  intros (before & digits & spaces & c & after & -> & ? & ? & ? & ? & ?).
  unfold parseRequirement.
  destruct (regex_match_complete before
              ("Level " +:+ digits +:+ spaces +:+ String c after)) as [[d n] ->];
    [by apply match_here_complete|by eexists].
Qed.

(** ** The speed bonus *)

Lemma Qcdiv_le_divisor (t d1 d2 : Qc) :
  (0 <= t)%Qc -> (0 < d1)%Qc -> (d1 <= d2)%Qc -> (t / d2 <= t / d1)%Qc.
Proof.
  intros Ht Hd1 Hd. assert (0 < d2)%Qc as Hd2 by (by eapply Qclt_le_trans).
  assert (d1 <> 0%Qc) by (intros ->; by apply (Qclt_not_eq 0 0)).
  assert (d2 <> 0%Qc) by (intros ->; by apply (Qclt_not_eq 0 0)).
  unfold Qcdiv. apply Qcmult_le_mono_nonneg_l; [done|].
  apply (Qcmult_le_mono_pos_r _ _ (d1 * d2)); [by apply Qcmult_pos_pos|].
  replace (/ d2 * (d1 * d2))%Qc with d1 by (by field).
  replace (/ d1 * (d1 * d2))%Qc with d2 by (by field). done.
Qed.

Lemma speed_divisor_pos p : (Qc_of_Z (-100) < p)%Qc -> (0 < speed_divisor p)%Qc.
Proof.
  intros Hp. unfold speed_divisor.
  apply (Qcmult_lt_mono_pos_r _ _ (Qc_of_Z 100)); [done|].
  replace (0 * Qc_of_Z 100)%Qc with (Qc_of_Z 100 + Qc_of_Z (-100))%Qc
    by (by apply Qc_is_canon).
  replace ((1 + p / Qc_of_Z 100) * Qc_of_Z 100)%Qc with (Qc_of_Z 100 + p)%Qc
    by (by field).
  by apply Qcplus_lt_mono_l.
Qed.

Lemma speed_divisor_mono p1 p2 :
  (p1 <= p2)%Qc -> (speed_divisor p1 <= speed_divisor p2)%Qc.
Proof.
  intros Hp. unfold speed_divisor, Qcdiv. apply Qcplus_le_mono_l.
  by apply Qcmult_le_mono_nonneg_r.
Qed.

(** The two runs walk the same path: whatever relation [R] holds between
    the divided upgrade times, and is kept by sums, holds between the times of
    the results. *)
Section TwoBonuses.

Variable R : Qc -> Qc -> Prop.
Hypothesis R_zero : R 0%Qc 0%Qc.
Hypothesis R_plus : forall a b c d, R a b -> R c d -> R (a + c)%Qc (b + d)%Qc.

Variable db : gmap string StructureDefinition.
Variable lv : gmap string Z.
Variables p1 p2 : Qc.
Hypothesis R_divided :
  forall s sdef lvl ld,
    db !! s = Some sdef -> levels sdef !! lvl = Some ld ->
    R (upgrade_time ld / speed_divisor p2)%Qc (upgrade_time ld / speed_divisor p1)%Qc.

Lemma alike_empty : alike R empty_result empty_result.
Proof. by split_and!. Qed.

Lemma alike_add_individual r2 r1 e :
  alike R r2 r1 -> alike R (add_individual r2 e) (add_individual r1 e).
Proof.
  intros (H1 & H2 & H3 & ? & ? & ? & ?). split_and!; simpl; try done.
  - by rewrite H1.
  - by rewrite H3.
Qed.

Lemma alike_add_dependency_cost r2 r1 e :
  alike R r2 r1 -> alike R (add_dependency_cost r2 e) (add_dependency_cost r1 e).
Proof.
  intros (H1 & H2 & H3 & ? & ? & ? & ?). split_and!; simpl; try done.
  - by rewrite H2.
  - by rewrite H3.
Qed.

Lemma alike_add_upgrade_time r2 r1 t2 t1 :
  alike R r2 r1 -> R t2 t1 ->
  alike R (add_upgrade_time r2 t2) (add_upgrade_time r1 t1).
Proof.
  intros (H1 & H2 & H3 & ? & ? & ? & ?) Ht.
  split_and!; simpl; try done; by apply R_plus.
Qed.

Lemma alike_foldl {A} (f : AggregateResult -> A -> AggregateResult) l :
  (forall r2 r1 e, alike R r2 r1 -> alike R (f r2 e) (f r1 e)) ->
  forall r2 r1, alike R r2 r1 -> alike R (foldl f r2 l) (foldl f r1 l).
Proof. intros Hf. induction l as [|e l IH]; simpl; auto. Qed.

Lemma alike_charge r2 r1 dep maxLevel dr2 dr1 :
  alike R r2 r1 -> alike R dr2 dr1 ->
  alike R (charge r2 dep maxLevel dr2) (charge r1 dep maxLevel dr1).
Proof.
  intros Hr (_ & _ & Hc & _ & _ & Ht & _). unfold charge. rewrite Hc.
  pose proof (alike_foldl add_dependency_cost (map_to_list (totalCosts dr1))
                alike_add_dependency_cost r2 r1 Hr)
    as (? & ? & ? & ? & ? & ? & ?).
  split_and!; simpl; try done; try by apply R_plus.
  apply Forall2_app; [done|]. by repeat constructor.
Qed.

Lemma alike_second_pass s sdef range :
  db !! s = Some sdef ->
  forall r2 r1,
    alike R r2 r1 ->
    alike R (second_pass sdef range (p2 / Qc_of_Z 100) r2)
            (second_pass sdef range (p1 / Qc_of_Z 100) r1).
Proof.
  intros Hs. unfold second_pass.
  induction range as [|lvl range IH]; simpl; intros r2 r1 Hr; [done|].
  apply IH. destruct (levels sdef !! lvl) as [ld|] eqn:Hld; [|done].
  unfold second_pass_level.
  pose proof (alike_foldl add_individual (map_to_list (costs ld))
                alike_add_individual r2 r1 Hr).
  destruct (decide _); [done|].
  apply alike_add_upgrade_time; [done|]. by eapply R_divided.
Qed.

Lemma alike_third_pass rec2 rec1 entries :
  (forall s t c st r1 st1,
      rec1 s t c st = Some (r1, st1) ->
      exists r2, rec2 s t c st = Some (r2, st1) /\ alike R r2 r1) ->
  forall res2 res1 st r1 st1,
    alike R res2 res1 ->
    third_pass lv rec1 entries res1 st = Some (r1, st1) ->
    exists r2, third_pass lv rec2 entries res2 st = Some (r2, st1)
               /\ alike R r2 r1.
Proof.
  intros Hrec. induction entries as [|[dep maxLevel] rest IH]; simpl;
    intros res2 res1 st r1 st1 Hres.
  - intros [= <- <-]. by exists res2.
  - destruct (_ <? _); [|by apply IH].
    destruct (decide _); [by apply IH|].
    destruct (rec1 _ _ _ _) as [[dr1 st']|] eqn:E; [|done].
    destruct (Hrec _ _ _ _ _ _ E) as (dr2 & -> & Hdr).
    apply IH. by apply alike_charge.
Qed.

Lemma alike_calc fuel : forall s t c st r1 st1,
  calc fuel p1 db lv s t c st = Some (r1, st1) ->
  exists r2, calc fuel p2 db lv s t c st = Some (r2, st1) /\ alike R r2 r1.
Proof.
  induction fuel as [|fuel IH]; intros s t c st r1 st1; [done|].
  simpl. unfold calc_body.
  destruct (db !! s) as [sdef|] eqn:Hs;
    [|intros [= <- <-]; eexists; split; [done|apply alike_empty]].
  destruct (_ <=? _);
    [intros [= <- <-]; eexists; split; [done|apply alike_empty]|].
  apply alike_third_pass; [done|].
  eapply alike_second_pass; [done|apply alike_empty].
Qed.

End TwoBonuses.

Lemma alike_dependencies R l2 l1 :
  Forall2 (alike_entries R) l2 l1 ->
  dep_pair <$> l2 = dep_pair <$> l1
  /\ dep_resources <$> l2 = dep_resources <$> l1
  /\ Forall2 (fun d2 d1 => R (dep_time d2) (dep_time d1)) l2 l1.
Proof.
  induction 1 as [|d2 d1 l2 l1 (Hn & Hl & Hr & Ht) _ (IH1 & IH2 & IH3)];
    [done|].
  csimpl. rewrite IH1, IH2. unfold dep_pair. rewrite Hn, Hl, Hr.
  split_and!; [done..|]. by constructor.
Qed.

(** The structure's own time is the sum of the divided upgrade times. *)
Lemma sum_Qc_app l k : sum_Qc (l ++ k) = (sum_Qc l + sum_Qc k)%Qc.
Proof.
  induction l as [|x l IH]; simpl; [by rewrite Qcplus_0_l|].
  rewrite IH. ring.
Qed.

Lemma individualTimes_second_pass sdef range speed : forall r,
  individualTimes (second_pass sdef range speed r)
  = (individualTimes r
     + sum_Qc ((fun ld => upgrade_time ld / (1 + speed)) <$>
                 omap (fun lvl => levels sdef !! lvl) range))%Qc.
Proof.
  unfold second_pass.
  induction range as [|lvl range IH]; csimpl; intros r; [ring|].
  rewrite IH. destruct (levels sdef !! lvl) as [ld|]; csimpl; [|done].
  unfold second_pass_level.
  destruct (foldl_add_individual_fields (map_to_list (costs ld)) r)
    as (_ & _ & Ht & _).
  destruct (decide _) as [E|]; csimpl; rewrite Ht; [|ring].
  rewrite E. unfold Qcdiv. ring.
Qed.

Lemma individualTimes_third_pass lv rec entries : forall result st r st',
  third_pass lv rec entries result st = Some (r, st') ->
  individualTimes r = individualTimes result.
Proof.
  induction entries as [|[dep maxLevel] rest IH]; simpl; intros result st r st'.
  - by intros [= <- _].
  - destruct (_ <? _); [|by apply IH].
    destruct (decide _); [by apply IH|].
    destruct (rec _ _ _ _) as [[depResult st1]|]; [|done].
    intros ->%IH. unfold charge. simpl.
    by destruct (foldl_add_dependency_cost_fields
                   (map_to_list (totalCosts depResult)) result)
      as (_ & _ & -> & _).
Qed.

Lemma individualTimes_calc fuel p db lv s t c st r st' :
  calc fuel p db lv s t c st = Some (r, st') ->
  individualTimes r
  = sum_Qc ((fun ld => upgrade_time ld / speed_divisor p)%Qc <$>
              levels_in_range db s (resolve_level lv s c) t).
Proof.
  destruct fuel as [|fuel]; [done|]. simpl. unfold calc_body, levels_in_range.
  fold (resolve_level lv s c).
  destruct (db !! s) as [sdef|]; [|by intros [= <- _]].
  destruct (Z.leb_spec t (resolve_level lv s c)).
  - intros [= <- _]. by rewrite seqZ_nil by lia.
  - intros ->%individualTimes_third_pass. rewrite individualTimes_second_pass.
    simpl. by rewrite Qcplus_0_l.
Qed.

(** ** Decimal numerals and keys *)

Lemma parseInt_from_uint_acc d : forall acc,
  parseInt_from (Z.pos acc) (NilEmpty.string_of_uint d)
  = Z.pos (Pos.of_uint_acc d acc).
Proof.
  induction d as [|d IH|d IH|d IH|d IH|d IH|d IH|d IH|d IH|d IH|d IH];
    intros acc; [done|..];
    cbn [NilEmpty.string_of_uint parseInt_from Pos.of_uint_acc];
    rewrite <- IH; f_equal; unfold digit_value; simpl; lia.
Qed.

Lemma parseInt_uint d :
  parseInt (NilEmpty.string_of_uint d) = Z.of_N (Pos.of_uint d).
Proof.
  unfold parseInt.
  induction d as [|d IH|d IH|d IH|d IH|d IH|d IH|d IH|d IH|d IH|d IH];
    [done|exact IH|..];
    cbn [NilEmpty.string_of_uint parseInt_from Pos.of_uint];
    apply (parseInt_from_uint_acc d).
Qed.

Lemma all_digits_uint d : all_digits (NilEmpty.string_of_uint d) = true.
Proof.
  induction d as [|d IH|d IH|d IH|d IH|d IH|d IH|d IH|d IH|d IH|d IH];
    [done|..]; cbn [NilEmpty.string_of_uint all_chars]; by rewrite IH.
Qed.

(** Printing a level and reading it back. *)
Lemma parseInt_Z_to_string n : 0 <= n -> parseInt (Z_to_string n) = n.
Proof.
  destruct n as [|p|p]; [done| |lia]. intros _. unfold Z_to_string.
  by rewrite parseInt_uint, DecimalPos.Unsigned.of_to.
Qed.

Lemma all_digits_Z_to_string n : 0 <= n -> all_digits (Z_to_string n) = true.
Proof. destruct n; [done| |lia]. intros _. apply all_digits_uint. Qed.


Lemma all_chars_app p a b :
  all_chars p (a +:+ b) = all_chars p a && all_chars p b.
Proof.
  induction a as [|x a IH]; [done|]. rewrite append_cons. simpl.
  by rewrite IH, andb_assoc.
Qed.

(** The last dash of a key separates the name from the level. *)
Lemma append_dash_inj a : forall b d1 d2,
  all_digits d1 = true -> all_digits d2 = true ->
  a +:+ String "-" d1 = b +:+ String "-" d2 -> a = b /\ d1 = d2.
Proof.
  assert (forall b d, all_digits (b +:+ String "-" d) = false) as Hdash.
  { intros b d. rewrite all_chars_app. simpl. apply andb_false_r. }
  induction a as [|x a IH]; intros [|y b] d1 d2 H1 H2 E;
    rewrite ?append_cons, ?append_nil in E.
  - by injection E.
  - injection E as <- ->. by rewrite Hdash in H1.
  - injection E as -> <-. by rewrite Hdash in H2.
  - injection E as -> E. by destruct (IH _ _ _ H1 H2 E) as [-> ->].
Qed.

Lemma make_depKey_inj n1 l1 n2 l2 :
  0 <= l1 -> 0 <= l2 ->
  make_depKey n1 l1 = make_depKey n2 l2 -> n1 = n2 /\ l1 = l2.
Proof.
  intros H1 H2 E. unfold make_depKey in E.
  change (n1 +:+ String "-" (Z_to_string l1)
          = n2 +:+ String "-" (Z_to_string l2)) in E.
  apply append_dash_inj in E as [-> E]; [|by apply all_digits_Z_to_string..].
  split; [done|].
  by rewrite <- (parseInt_Z_to_string l1), <- (parseInt_Z_to_string l2), E.
Qed.

(** The levels of the appended entries come from requirement strings. *)
Lemma third_pass_appended_nonneg lv rec entries :
  (forall s t c st r st',
      rec s t c st = Some (r, st') ->
      (forall p, p ∈ appended st -> 0 <= p.2) ->
      forall p, p ∈ appended st' -> 0 <= p.2) ->
  (forall p, p ∈ entries -> 0 <= p.2) ->
  forall result st r st',
    third_pass lv rec entries result st = Some (r, st') ->
    (forall p, p ∈ appended st -> 0 <= p.2) ->
    forall p, p ∈ appended st' -> 0 <= p.2.
Proof.
  intros Hrec. induction entries as [|[dep maxLevel] rest IH]; simpl;
    intros Hpos result st r st'.
  - by intros [= _ <-].
  - assert (forall p, p ∈ rest -> 0 <= p.2) as Hrest
      by (intros; apply Hpos; by right).
    destruct (_ <? _); [|by apply IH].
    destruct (decide _); [by apply IH|].
    destruct (rec _ _ _ _) as [[depResult st1]|] eqn:Erec; [|done].
    intros E Hst. eapply IH; [done|exact E|].
    simpl. intros p [Hp| ->%list_elem_of_singleton]%elem_of_app.
    + by eapply (Hrec _ _ _ _ _ _ Erec).
    + apply (Hpos (dep, maxLevel)). left.
Qed.

Lemma calc_appended_nonneg fuel bonus db lv : forall s t c st r st',
  calc fuel bonus db lv s t c st = Some (r, st') ->
  (forall p, p ∈ appended st -> 0 <= p.2) ->
  forall p, p ∈ appended st' -> 0 <= p.2.
Proof.
  induction fuel as [|fuel IH]; intros s t c st r st'; [done|].
  simpl. unfold calc_body.
  destruct (db !! s) as [sdef|] eqn:Hs; [|by intros [= _ <-]].
  destruct (_ <=? _); [by intros [= _ <-]|].
  apply third_pass_appended_nonneg; [done|].
  intros [k l] Hin. rewrite Object_entries_perm in Hin.
  edestruct (first_pass_tracks db s sdef) as (_ & _ & Hmax); [done|].
  destruct (Hmax _ _ Hin) as [(ld & Hq & _)%list_elem_of_bind _].
  by apply level_demands_nonneg in Hq.
Qed.

(** ** Sums of costs *)

Lemma amount_insert (m : gmap string Qc) k a resource :
  amount (<[k := a]> m) resource
  = if decide (resource = k) then a else amount m resource.
Proof.
  unfold amount. destruct (decide (resource = k)) as [->|Hne].
  - by rewrite lookup_insert_eq.
  - by rewrite lookup_insert_ne.
Qed.

Lemma amount_add_entries es : forall m resource,
  NoDup es.*1 ->
  amount (add_entries m es) resource
  = (amount m resource + amount (list_to_map es) resource)%Qc.
Proof.
  induction es as [|[k a] es IH]; intros m r Hnd.
  - simpl. unfold amount at 3. rewrite lookup_empty. simpl. ring.
  - apply NoDup_cons in Hnd as [Hk Hnd].
    change (add_entries m ((k, a) :: es)) with (add_entries (add_cost m k a) es).
    change (list_to_map ((k, a) :: es) : gmap string Qc)
      with (<[k := a]> (list_to_map es : gmap string Qc)).
    rewrite IH, amount_add_cost, amount_insert by done.
    destruct (decide (r = k)) as [->|Hne]; [|ring].
    unfold amount at 2. rewrite (not_elem_of_list_to_map_1 _ k) by done.
    simpl. ring.
Qed.

Lemma amount_add_map m costs resource :
  amount (add_entries m (map_to_list costs)) resource
  = (amount m resource + amount costs resource)%Qc.
Proof.
  rewrite amount_add_entries by apply NoDup_fst_map_to_list.
  by rewrite list_to_map_to_list.
Qed.

Lemma foldl_add_individual_costs es : forall r,
  individualCosts (foldl add_individual r es) = add_entries (individualCosts r) es
  /\ totalCosts (foldl add_individual r es) = add_entries (totalCosts r) es.
Proof.
  induction es as [|e es IH]; simpl; intros r; [done|].
  by destruct (IH (add_individual r e)) as [-> ->].
Qed.

Lemma foldl_add_dependency_costs es : forall r,
  dependencyCosts (foldl add_dependency_cost r es)
  = add_entries (dependencyCosts r) es
  /\ totalCosts (foldl add_dependency_cost r es) = add_entries (totalCosts r) es.
Proof.
  induction es as [|e es IH]; simpl; intros r; [done|].
  by destruct (IH (add_dependency_cost r e)) as [-> ->].
Qed.

(** What the second pass leaves alone, and what it adds. *)
Lemma second_pass_keeps sdef range speed : forall r,
  let r' := second_pass sdef range speed r in
  dependencyCosts r' = dependencyCosts r
  /\ dependencyTimes r' = dependencyTimes r.
Proof.
  unfold second_pass. induction range as [|lvl range IH]; simpl; intros r; [done|].
  destruct (IH (match levels sdef !! lvl with
                | Some levelData => second_pass_level speed levelData r
                | None => r
                end)) as [-> ->].
  destruct (levels sdef !! lvl) as [ld|]; [|done]. unfold second_pass_level.
  destruct (foldl_add_individual_fields (map_to_list (costs ld)) r)
    as (Hc & _ & _ & Ht & _).
  by destruct (decide _).
Qed.

Lemma individualCosts_second_pass sdef range speed resource : forall r,
  amount (individualCosts (second_pass sdef range speed r)) resource
  = (amount (individualCosts r) resource
     + sum_Qc ((fun ld => amount (costs ld) resource) <$>
                 omap (fun lvl => levels sdef !! lvl) range))%Qc.
Proof.
  unfold second_pass.
  induction range as [|lvl range IH]; csimpl; intros r; [ring|].
  rewrite IH. destruct (levels sdef !! lvl) as [ld|]; csimpl; [|done].
  unfold second_pass_level.
  destruct (foldl_add_individual_costs (map_to_list (costs ld)) r) as [Hc _].
  assert (amount (individualCosts
                    (foldl add_individual r (map_to_list (costs ld)))) resource
          = (amount (individualCosts r) resource + amount (costs ld) resource)%Qc)
    as Hamount by (by rewrite Hc, amount_add_map).
  destruct (decide _); simpl; rewrite Hamount; ring.
Qed.

Lemma individualCosts_third_pass lv rec entries : forall result st r st',
  third_pass lv rec entries result st = Some (r, st') ->
  individualCosts r = individualCosts result.
Proof.
  induction entries as [|[dep maxLevel] rest IH]; simpl; intros result st r st'.
  - by intros [= <- _].
  - destruct (_ <? _); [|by apply IH].
    destruct (decide _); [by apply IH|].
    destruct (rec _ _ _ _) as [[depResult st1]|]; [|done].
    intros ->%IH. unfold charge. simpl.
    by destruct (foldl_add_dependency_cost_fields
                   (map_to_list (totalCosts depResult)) result) as (-> & _).
Qed.

Lemma individualCosts_calc fuel p db lv s t c st r st' resource :
  calc fuel p db lv s t c st = Some (r, st') ->
  amount (individualCosts r) resource
  = sum_Qc ((fun ld => amount (costs ld) resource) <$>
              levels_in_range db s (resolve_level lv s c) t).
Proof.
  destruct fuel as [|fuel]; [done|]. simpl. unfold calc_body, levels_in_range.
  destruct (db !! s) as [sdef|]; [|by intros [= <- _]].
  destruct (Z.leb_spec t (resolve_level lv s c)).
  - intros [= <- _]. by rewrite seqZ_nil by lia.
  - intros ->%individualCosts_third_pass. rewrite individualCosts_second_pass.
    unfold amount at 1. simpl. rewrite lookup_empty. simpl. ring.
Qed.

(** ** The listed prerequisites add up *)

Lemma listed_sums_charge r dep maxLevel depResult :
  listed_sums r -> listed_sums (charge r dep maxLevel depResult).
Proof.
  intros [Hc Ht]. unfold charge.
  destruct (foldl_add_dependency_cost_fields
              (map_to_list (totalCosts depResult)) r) as (_ & Hd & _ & Hdt & _).
  destruct (foldl_add_dependency_costs (map_to_list (totalCosts depResult)) r)
    as [Hdc _].
  split; [intros resource|];
    cbn [dependencies dependencyCosts dependencyTimes];
    rewrite Hd, fmap_app, sum_Qc_app; csimpl.
  - rewrite Hdc, amount_add_map, Hc. ring.
  - rewrite Hdt, Ht. ring.
Qed.

Lemma listed_sums_third_pass lv rec entries : forall result st r st',
  listed_sums result ->
  third_pass lv rec entries result st = Some (r, st') -> listed_sums r.
Proof.
  induction entries as [|[dep maxLevel] rest IH]; simpl; intros result st r st' Hr.
  - by intros [= <- _].
  - destruct (_ <? _); [|by apply IH].
    destruct (decide _); [by apply IH|].
    destruct (rec _ _ _ _) as [[depResult st1]|]; [|done].
    apply IH. by apply listed_sums_charge.
Qed.

Lemma listed_sums_calc fuel bonus db lv s t c st r st' :
  calc fuel bonus db lv s t c st = Some (r, st') -> listed_sums r.
Proof.
  assert (listed_sums empty_result) as Hempty.
  { split; [|done]. intros resource. unfold amount. simpl.
    by rewrite lookup_empty. }
  destruct fuel as [|fuel]; [done|]. simpl. unfold calc_body.
  destruct (db !! s) as [sdef|]; [|by intros [= <- _]].
  destruct (_ <=? _); [by intros [= <- _]|].
  apply listed_sums_third_pass.
  destruct (second_pass_keeps sdef
              (seqZ (resolve_level lv s c + 1) (t - resolve_level lv s c))
              (bonus / Qc_of_Z 100) empty_result) as [Hc Ht].
  destruct Hempty as [Hec Het].
  split; [intros resource|]; rewrite ?Hc, ?Ht, dependencies_second_pass; auto.
Qed.

(** ** Nothing negative *)

Lemma nonneg_add_cost m k a :
  nonneg_map m -> (0 <= a)%Qc -> nonneg_map (add_cost m k a).
Proof.
  intros Hm Ha resource. rewrite amount_add_cost.
  apply Qcplus_nonneg_nonneg; [apply Hm|]. by destruct (decide _).
Qed.

Lemma nonneg_add_individual r e :
  nonneg_result r -> (0 <= e.2)%Qc -> nonneg_result (add_individual r e).
Proof.
  intros (? & ? & ? & ? & ? & ? & ?) He.
  split_and!; simpl; try done; by apply nonneg_add_cost.
Qed.

Lemma nonneg_add_dependency_cost r e :
  nonneg_result r -> (0 <= e.2)%Qc -> nonneg_result (add_dependency_cost r e).
Proof.
  intros (? & ? & ? & ? & ? & ? & ?) He.
  split_and!; simpl; try done; by apply nonneg_add_cost.
Qed.

Lemma nonneg_add_upgrade_time r t :
  nonneg_result r -> (0 <= t)%Qc -> nonneg_result (add_upgrade_time r t).
Proof.
  intros (? & ? & ? & ? & ? & ? & ?) He.
  split_and!; simpl; try done; by apply Qcplus_nonneg_nonneg.
Qed.

Lemma nonneg_foldl (f : AggregateResult -> string * Qc -> AggregateResult) es :
  (forall r e, nonneg_result r -> (0 <= e.2)%Qc -> nonneg_result (f r e)) ->
  forall r, nonneg_result r -> (forall e, e ∈ es -> (0 <= e.2)%Qc) ->
            nonneg_result (foldl f r es).
Proof.
  intros Hf. induction es as [|e es IH]; simpl; intros r Hr Hes; [done|].
  apply IH; [apply Hf; [done|apply Hes; left]|]. intros. apply Hes. by right.
Qed.

Lemma nonneg_map_entries m e :
  nonneg_map m -> e ∈ map_to_list m -> (0 <= e.2)%Qc.
Proof.
  intros Hm Hin. destruct e as [k a]. apply elem_of_map_to_list in Hin.
  specialize (Hm k). unfold amount in Hm. by rewrite Hin in Hm.
Qed.

Lemma nonneg_charge r dep maxLevel depResult :
  nonneg_result r -> nonneg_result depResult ->
  nonneg_result (charge r dep maxLevel depResult).
Proof.
  intros Hr (_ & _ & Hc & _ & _ & Ht & _). unfold charge.
  pose proof (nonneg_foldl add_dependency_cost
                (map_to_list (totalCosts depResult))
                nonneg_add_dependency_cost r Hr
                (fun e => nonneg_map_entries _ e Hc))
    as (? & ? & ? & ? & ? & ? & ?).
  split_and!; simpl; try done; try by apply Qcplus_nonneg_nonneg.
  apply Forall_app. split; [done|]. by apply Forall_singleton.
Qed.

Lemma Qcdiv_nonneg (t d : Qc) : (0 <= t)%Qc -> (0 < d)%Qc -> (0 <= t / d)%Qc.
Proof.
  intros Ht Hd. unfold Qcdiv. apply Qcmult_nonneg_nonneg; [done|].
  by apply Qclt_le_weak, Qcinv_pos.
Qed.

Lemma nonneg_empty : nonneg_result empty_result.
Proof.
  assert (nonneg_map ∅) by (intros r; unfold amount; by rewrite lookup_empty).
  by split_and!.
Qed.

Section Nonneg.

Variable db : gmap string StructureDefinition.
Variable lv : gmap string Z.
Variable bonus : Qc.
Hypothesis costs_nonneg : nonneg_costs db.
Hypothesis times_nonneg : nonneg_times db.
Hypothesis divisor_pos : (0 < speed_divisor bonus)%Qc.

Lemma nonneg_second_pass s sdef range :
  db !! s = Some sdef ->
  forall r, nonneg_result r ->
            nonneg_result (second_pass sdef range (bonus / Qc_of_Z 100) r).
Proof.
  intros Hs. unfold second_pass.
  induction range as [|lvl range IH]; simpl; intros r Hr; [done|].
  apply IH. destruct (levels sdef !! lvl) as [ld|] eqn:Hld; [|done].
  unfold second_pass_level.
  assert (nonneg_result (foldl add_individual r (map_to_list (costs ld)))).
  { apply nonneg_foldl; [apply nonneg_add_individual|done|].
    intros [k a] Hin%elem_of_map_to_list. by eapply costs_nonneg. }
  destruct (decide _); [done|].
  apply nonneg_add_upgrade_time; [done|].
  apply Qcdiv_nonneg; [by eapply times_nonneg|done].
Qed.

Lemma nonneg_third_pass rec entries :
  (forall s t c st r st', rec s t c st = Some (r, st') -> nonneg_result r) ->
  forall result st r st',
    nonneg_result result ->
    third_pass lv rec entries result st = Some (r, st') -> nonneg_result r.
Proof.
  intros Hrec.
  induction entries as [|[dep maxLevel] rest IH]; simpl; intros result st r st' Hr.
  - by intros [= <- _].
  - destruct (_ <? _); [|by apply IH].
    destruct (decide _); [by apply IH|].
    destruct (rec _ _ _ _) as [[depResult st1]|] eqn:E; [|done].
    apply IH. apply nonneg_charge; [done|]. by eapply Hrec.
Qed.

Lemma nonneg_calc fuel : forall s t c st r st',
  calc fuel bonus db lv s t c st = Some (r, st') -> nonneg_result r.
Proof.
  induction fuel as [|fuel IH]; intros s t c st r st'; [done|].
  simpl. unfold calc_body.
  destruct (db !! s) as [sdef|] eqn:Hs; [|intros [= <- _]; apply nonneg_empty].
  destruct (_ <=? _); [intros [= <- _]; apply nonneg_empty|].
  apply nonneg_third_pass; [done|].
  eapply nonneg_second_pass; [done|apply nonneg_empty].
Qed.

End Nonneg.


(** ** The tree and the aggregator *)

Lemma foldl_tree_add_cost es : forall tree,
  let tree' := foldl tree_add_cost tree es in
  tree_structure tree' = tree_structure tree
  /\ tree_currentLevel tree' = tree_currentLevel tree
  /\ tree_targetLevel tree' = tree_targetLevel tree
  /\ tree_costs tree' = add_entries (tree_costs tree) es
  /\ tree_time tree' = tree_time tree
  /\ tree_children tree' = tree_children tree.
Proof.
  induction es as [|e es IH]; simpl; intros tree; [done|].
  by destruct (IH (tree_add_cost tree e)) as (-> & -> & -> & -> & -> & ->).
Qed.

(** The loop over the requirements only appends children. *)
Lemma tree_requirements_root lv rec v reqs : forall tree tree',
  tree_requirements lv rec v reqs tree = Some tree' ->
  tree_structure tree' = tree_structure tree
  /\ tree_currentLevel tree' = tree_currentLevel tree
  /\ tree_targetLevel tree' = tree_targetLevel tree
  /\ tree_costs tree' = tree_costs tree
  /\ tree_time tree' = tree_time tree.
Proof.
  induction reqs as [|req reqs IH]; simpl; intros tree tree'.
  - by intros [= <-].
  - destruct (parseRequirement req) as [parsed|]; [|by apply IH].
    destruct (_ <? _); [|by apply IH].
    destruct (alreadyExists tree parsed); [by apply IH|].
    destruct (rec _ _ _ _) as [child|]; [|done].
    by intros (-> & -> & -> & -> & ->)%IH.
Qed.

Lemma tree_level_root db lv rec s v speed lvl tree tree' :
  tree_level db lv rec s v speed lvl tree = Some tree' ->
  tree_structure tree' = tree_structure tree
  /\ tree_currentLevel tree' = tree_currentLevel tree
  /\ tree_targetLevel tree' = tree_targetLevel tree.
Proof.
  unfold tree_level. destruct (db !! s) as [sdef|]; [|by intros [= <-]].
  destruct (levels sdef !! lvl) as [ld|]; [|by intros [= <-]].
  intros (-> & -> & -> & _)%tree_requirements_root.
  destruct (foldl_tree_add_cost (map_to_list (costs ld)) tree)
    as (? & ? & ? & _).
  by destruct (decide _).
Qed.

Lemma tree_levels_root db lv rec s v speed range : forall tree tree',
  tree_levels db lv rec s v speed range tree = Some tree' ->
  tree_structure tree' = tree_structure tree
  /\ tree_currentLevel tree' = tree_currentLevel tree
  /\ tree_targetLevel tree' = tree_targetLevel tree.
Proof.
  induction range as [|lvl range IH]; simpl; intros tree tree'.
  - by intros [= <-].
  - destruct (tree_level _ _ _ _ _ _ _ _) as [tree1|] eqn:E; [|done].
    apply tree_level_root in E as (<- & <- & <-). apply IH.
Qed.

Lemma buildDependencyTree_root fuel s t c db lv bonus v tree :
  buildDependencyTree fuel s t c db lv bonus v = Some tree ->
  tree_structure tree = s
  /\ tree_currentLevel tree = resolve_level lv s c
  /\ tree_targetLevel tree = t.
Proof.
  destruct fuel as [|fuel]; [done|]. simpl. unfold tree_body.
  destruct (_ <=? _); [by intros [= <-]|].
  by intros (-> & -> & ->)%tree_levels_root.
Qed.

(** The walk over the levels adds to the node what the second pass adds to
    the structure's own costs and time. *)
Lemma tree_levels_own db lv rec s sdef v speed range :
  db !! s = Some sdef ->
  forall tree tree' r,
    tree_levels db lv rec s v speed range tree = Some tree' ->
    tree_costs tree = individualCosts r ->
    tree_time tree = individualTimes r ->
    tree_costs tree' = individualCosts (second_pass sdef range speed r)
    /\ tree_time tree' = individualTimes (second_pass sdef range speed r).
Proof.
  intros Hs. unfold second_pass.
  induction range as [|lvl range IH]; simpl; intros tree tree' r.
  - by intros [= <-].
  - destruct (tree_level _ _ _ _ _ _ _ _) as [tree1|] eqn:E; [|done].
    intros Hrest Hc Ht. apply (IH _ _ _ Hrest); clear IH Hrest;
      unfold tree_level in E; rewrite Hs in E;
      destruct (levels sdef !! lvl) as [ld|]; try (by injection E as <-);
      apply tree_requirements_root in E as (_ & _ & _ & Hc1 & Ht1);
      rewrite ?Hc1, ?Ht1; unfold second_pass_level;
      destruct (foldl_tree_add_cost (map_to_list (costs ld)) tree)
        as (_ & _ & _ & Htc & Htt & _);
      destruct (foldl_add_individual_costs (map_to_list (costs ld)) r) as [Hic _];
      destruct (foldl_add_individual_fields (map_to_list (costs ld)) r)
        as (_ & _ & Hit & _);
      destruct (decide _); simpl; congruence.
Qed.

Lemma buildDependencyTree_own fuel fuel' s t c db lv bonus v tree st r st' :
  buildDependencyTree fuel s t c db lv bonus v = Some tree ->
  calc fuel' bonus db lv s t c st = Some (r, st') ->
  tree_costs tree = individualCosts r /\ tree_time tree = individualTimes r.
Proof.
  destruct fuel as [|fuel]; [done|]. destruct fuel' as [|fuel']; [done|].
  simpl. unfold tree_body, calc_body.
  destruct (db !! s) as [sdef|] eqn:Hs.
  - destruct (_ <=? _); [by intros [= <-] [= <- _]|].
    intros Htree Hcalc.
    rewrite (individualCosts_third_pass _ _ _ _ _ _ _ Hcalc),
            (individualTimes_third_pass _ _ _ _ _ _ _ Hcalc).
    by eapply tree_levels_own.
  - destruct (_ <=? _); [by intros [= <-] [= <- _]|].
    rewrite tree_levels_absent by done. by intros [= <-] [= <- _].
Qed.

(** ** The children of a node *)

Lemma alreadyExists_true tree parsed :
  alreadyExists tree parsed = true ->
  req_pair parsed ∈ child_pair <$> tree_children tree.
Proof.
  unfold alreadyExists. intros (child & Hin & H)%existsb_exists.
  apply andb_prop in H as [Hs%bool_decide_eq_true_1 Hl%bool_decide_eq_true_1].
  apply list_elem_of_fmap. exists child. split; [|by apply list_elem_of_In].
  unfold req_pair, child_pair. by rewrite Hs, Hl.
Qed.

Section Children.

Variable db : gmap string StructureDefinition.
Variable lv : gmap string Z.
Variable rec : string -> Z -> option Z -> gset string -> option Tree.
Hypothesis rec_pair :
  forall s t c v child, rec s t c v = Some child -> child_pair child = (s, t).

Lemma tree_requirements_children v reqs : forall tree tree' p,
  tree_requirements lv rec v reqs tree = Some tree' ->
  p ∈ child_pair <$> tree_children tree'
  <-> p ∈ child_pair <$> tree_children tree
      \/ exists q, q ∈ omap parseRequirement reqs /\ unmet lv q /\ p = req_pair q.
Proof.
  induction reqs as [|req reqs IH]; csimpl; intros tree tree' p.
  - intros [= <-]. split; [by left|]. by intros [?|(q & ?%elem_of_nil & _)].
  - destruct (parseRequirement req) as [parsed|] eqn:Hparse; csimpl;
      [|by apply IH].
    destruct (Z.ltb_spec (level_or_1 lv (req_structure parsed))
                         (req_level parsed)) as [Hlt|Hge].
    + destruct (alreadyExists tree parsed) eqn:Hex.
      * intros E. rewrite (IH _ _ _ E). apply alreadyExists_true in Hex.
        split.
        -- intros [?|(q & Hq & ? & ?)]; [by left|]. right. exists q.
           split; [by right|done].
        -- intros [?|(q & [->|Hq]%elem_of_cons & ? & ->)]; [by left|by left|].
           right. by exists q.
      * destruct (rec _ _ _ _) as [child|] eqn:Erec; [|done].
        apply rec_pair in Erec. intros E. rewrite (IH _ _ _ E). simpl.
        rewrite fmap_app, elem_of_app. csimpl. rewrite list_elem_of_singleton, Erec.
        split.
        -- intros [[?| ->]|(q & Hq & ? & ?)]; [by left| |].
           ++ right. exists parsed. split; [left|done].
           ++ right. exists q. split; [by right|done].
        -- intros [?|(q & [->|Hq]%elem_of_cons & ? & ->)];
             [left; by left|left; by right|].
           right. by exists q.
    + intros E. rewrite (IH _ _ _ E). split.
      * intros [?|(q & Hq & ? & ?)]; [by left|]. right. exists q.
        split; [by right|done].
      * intros [?|(q & [->|Hq]%elem_of_cons & Hun & ->)]; [by left| |].
        -- unfold unmet in Hun. lia.
        -- right. by exists q.
Qed.

Lemma tree_levels_children s sdef v speed range :
  db !! s = Some sdef ->
  forall tree tree' p,
    tree_levels db lv rec s v speed range tree = Some tree' ->
    p ∈ child_pair <$> tree_children tree'
    <-> p ∈ child_pair <$> tree_children tree
        \/ exists q, q ∈ omap (fun lvl => levels sdef !! lvl) range ≫= level_demands
                     /\ unmet lv q /\ p = req_pair q.
Proof.
  intros Hs. induction range as [|lvl range IH]; csimpl; intros tree tree' p.
  - intros [= <-]. split; [by left|]. by intros [?|(q & ?%elem_of_nil & _)].
  - destruct (tree_level _ _ _ _ _ _ _ _) as [tree1|] eqn:E; [|done].
    intros Hrest. rewrite (IH _ _ _ Hrest). clear IH Hrest.
    unfold tree_level in E. rewrite Hs in E.
    destruct (levels sdef !! lvl) as [ld|]; csimpl; [|by injection E as <-].
    apply (tree_requirements_children _ _ _ _ p) in E.
    destruct (foldl_tree_add_cost (map_to_list (costs ld)) tree)
      as (_ & _ & _ & _ & _ & Hch).
    assert (p ∈ child_pair <$> tree_children tree1
            <-> p ∈ child_pair <$> tree_children tree
                \/ exists q, q ∈ level_demands ld /\ unmet lv q /\ p = req_pair q)
      as ->.
    { rewrite E. destruct (decide _); simpl; by rewrite Hch. }
    split.
    + intros [[?|(q & ? & ?)]|(q & ? & ?)]; [by left|right..]; exists q;
        (split; [apply elem_of_app; auto|done]).
    + intros [?|(q & [?|?]%elem_of_app & ?)]; [left; by left|left; right|right];
        by exists q.
Qed.

End Children.

Lemma buildDependencyTree_children fuel s t c db lv bonus v tree p :
  buildDependencyTree fuel s t c db lv bonus v = Some tree ->
  p ∈ child_pair <$> tree_children tree
  <-> exists q, q ∈ demands db s (resolve_level lv s c) t
                /\ unmet lv q /\ p = req_pair q.
Proof.
  destruct fuel as [|fuel]; [done|]. simpl. unfold tree_body, demands, levels_in_range.
  assert (forall P : Prop, p ∈ child_pair <$> @nil Tree \/ P <-> P) as Hnil.
  { intros P. split; [by intros [?%elem_of_nil|?]|by right]. }
  destruct (Z.leb_spec t (resolve_level lv s c)).
  - intros [= <-]. simpl. split; [by intros ?%elem_of_nil|].
    destruct (db !! s); [rewrite seqZ_nil by lia|];
      by intros (q & ?%elem_of_nil & _).
  - destruct (db !! s) as [sdef|] eqn:Hs.
    + intros E. eapply (tree_levels_children db lv) in E; [|
        intros ????? H'; by apply buildDependencyTree_distinct in H' as [? _]|done].
      rewrite E. apply Hnil.
    + rewrite tree_levels_absent by done. intros [= <-]. simpl.
      split; [by intros ?%elem_of_nil|by intros (q & ?%elem_of_nil & _)].
Qed.




(** ** When the tree builder returns *)

Lemma demands_asks db lv s c t q :
  q ∈ demands db s c t -> unmet lv q ->
  exists lvl, c < lvl <= t /\ asks db lv s lvl q.
Proof.
  unfold demands, levels_in_range. intros Hq Hun.
  destruct (db !! s) as [sdef|] eqn:Hs.
  - apply list_elem_of_bind in Hq as (ld & Hq & Hld).
    apply list_elem_of_omap in Hld as (lvl & Hlvl%elem_of_seqZ & Hld).
    exists lvl. split; [lia|]. by exists sdef, ld.
  - by apply elem_of_nil in Hq.
Qed.



(** ** The children are the trees of the recursive calls *)

Section Made.

Variable lv : gmap string Z.
Variable rec : string -> Z -> option Z -> gset string -> option Tree.
Variable v : gset string.
Hypothesis rec_pair :
  forall s t c child, rec s t c v = Some child -> child_pair child = (s, t).

Let made (child : Tree) : Prop :=
  rec (tree_structure child) (tree_targetLevel child)
      (Some (level_or_1 lv (tree_structure child))) v = Some child.

Lemma tree_requirements_made reqs : forall tree tree',
  tree_requirements lv rec v reqs tree = Some tree' ->
  Forall made (tree_children tree) -> Forall made (tree_children tree').
Proof.
  induction reqs as [|req reqs IH]; simpl; intros tree tree'.
  - by intros [= <-].
  - destruct (parseRequirement req) as [parsed|]; [|by apply IH].
    destruct (_ <? _); [|by apply IH].
    destruct (alreadyExists tree parsed); [by apply IH|].
    destruct (rec _ _ _ _) as [child|] eqn:Erec; [|done].
    intros E Hch. apply (IH _ _ E). simpl. apply Forall_app. split; [done|].
    apply Forall_singleton. unfold made.
    pose proof (rec_pair _ _ _ _ Erec) as [= -> ->]. exact Erec.
Qed.

Lemma tree_levels_made db s speed range : forall tree tree',
  tree_levels db lv rec s v speed range tree = Some tree' ->
  Forall made (tree_children tree) -> Forall made (tree_children tree').
Proof.
  induction range as [|lvl range IH]; simpl; intros tree tree'.
  - by intros [= <-].
  - destruct (tree_level _ _ _ _ _ _ _ _) as [tree1|] eqn:E; [|done].
    intros Hrest Hch. apply (IH _ _ Hrest). clear IH Hrest.
    unfold tree_level in E. destruct (db !! s) as [sdef|]; [|by injection E as <-].
    destruct (levels sdef !! lvl) as [ld|]; [|by injection E as <-].
    eapply tree_requirements_made; [exact E|].
    destruct (foldl_tree_add_cost (map_to_list (costs ld)) tree)
      as (_ & _ & _ & _ & _ & Hc).
    destruct (decide _); simpl; by rewrite Hc.
Qed.

End Made.

Lemma buildDependencyTree_made fuel s t c db lv bonus v tree :
  buildDependencyTree (S fuel) s t c db lv bonus v = Some tree ->
  Forall (fun child =>
            buildDependencyTree fuel (tree_structure child)
              (tree_targetLevel child)
              (Some (level_or_1 lv (tree_structure child))) db lv bonus v
            = Some child)
         (tree_children tree).
Proof.
  simpl. unfold tree_body. destruct (_ <=? _); [by intros [= <-]|].
  intros E.
  eapply (tree_levels_made lv
            (fun s t c v => buildDependencyTree fuel s t c db lv bonus v));
    [|exact E|by apply Forall_nil].
  intros s' t' c' child H. by apply buildDependencyTree_distinct in H as [? _].
Qed.

(** ** The formatter below one second and above one hour *)

Lemma floor_Qc_of_Z n : floor (Qc_of_Z n) = n.
Proof.
  unfold floor, Qc_of_Z. simpl. apply Z.div_1_r.
Qed.

Lemma formatTime_floor x : (0 <= x)%Qc -> formatTime x = format_spec (floor x).
Proof.
  intros Hx. pose proof (floor_nonneg x Hx) as Hn.
  unfold formatTime, format_spec. cbv zeta.
  rewrite !floor_rem_div, floor_rem, floor_div by (done || lia).
  apply format_parts.
  - apply Z.div_pos; lia.
  - apply Z.div_pos; [apply Z.mod_pos_bound|]; lia.
  - apply Z.div_pos; [apply Z.mod_pos_bound|]; lia.
  - apply Z.mod_pos_bound. lia.
Qed.

Lemma floor_nonpos (x : Qc) : (x <= 0)%Qc -> floor x <= 0.
Proof. intros H. apply (Qfloor_resp_le x 0 H). Qed.

(** Rounding towards zero does not go below a number that is not
    positive. *)
Lemma trunc_ge (q : Qc) : (q <= 0)%Qc -> (q <= Qc_of_Z (trunc q))%Qc.
Proof.
  intros Hq. unfold trunc. destruct (Qle_bool 0 q) eqn:E.
  - apply Qle_bool_iff in E.
    assert (q = 0%Qc) as -> by (by apply Qcle_antisym). by vm_compute.
  - unfold Qcle, Qc_of_Z. simpl. apply Qle_ceiling.
Qed.

Lemma Qc_of_Z_pos m : 0 < m -> (0 < Qc_of_Z m)%Qc.
Proof.
  intros Hm. unfold Qclt, Qc_of_Z. simpl. unfold Qlt. simpl. lia.
Qed.

Lemma div_nonpos (x : Qc) m : (x <= 0)%Qc -> 0 < m -> (x / Qc_of_Z m <= 0)%Qc.
Proof.
  intros Hx Hm. pose proof (Qc_of_Z_pos m Hm) as Hpos.
  apply Qcle_minus_iff. apply Qcle_minus_iff in Hx.
  replace (0 + - (x / Qc_of_Z m))%Qc with ((0 + - x) / Qc_of_Z m)%Qc
    by (unfold Qcdiv; ring).
  by apply Qcdiv_nonneg.
Qed.

(** [seconds % m] of a number that is not positive is not positive. *)
Lemma js_rem_nonpos (x : Qc) m :
  (x <= 0)%Qc -> 0 < m -> (js_rem x (Qc_of_Z m) <= 0)%Qc.
Proof.
  intros Hx Hm. pose proof (Qc_of_Z_pos m Hm) as Hpos. unfold js_rem.
  pose proof (trunc_ge _ (div_nonpos x m Hx Hm)) as Ht.
  apply Qcle_minus_iff. apply Qcle_minus_iff in Ht.
  replace (0 + - (x - Qc_of_Z m * Qc_of_Z (trunc (x / Qc_of_Z m))))%Qc
    with (Qc_of_Z m * (Qc_of_Z (trunc (x / Qc_of_Z m)) + - (x / Qc_of_Z m)))%Qc.
  - apply Qcmult_nonneg_nonneg; [by apply Qclt_le_weak|done].
  - field. intros H0. rewrite H0 in Hpos. by apply Qclt_not_eq in Hpos.
Qed.

Lemma format_spec_whole_minutes n :
  3600 <= n -> format_spec n = format_spec (n - n mod 60).
Proof.
  intros Hn. unfold format_spec. cbv zeta.
  assert ((n - n mod 60) / 86400 = n / 86400) as -> by
    (Z.div_mod_to_equations; lia).
  assert ((n - n mod 60) mod 86400 / 3600 = n mod 86400 / 3600) as -> by
    (Z.div_mod_to_equations; lia).
  assert ((n - n mod 60) mod 3600 / 60 = n mod 3600 / 60) as -> by
    (Z.div_mod_to_equations; lia).
  assert ((n / 86400 =? 0) && (n mod 86400 / 3600 =? 0) = false) as ->; [|done].
  apply andb_false_iff.
  destruct (Z.eqb_spec (n / 86400) 0) as [Hd|]; [right|by left].
  apply Z.eqb_neq. revert Hd. Z.div_mod_to_equations. lia.
Qed.

(** ** Reading a level typed into the page *)

Lemma digit_not_sign c :
  is_digit c = true -> Ascii.eqb c "-" = false /\ Ascii.eqb c "+" = false.
Proof. by destruct c as [[] [] [] [] [] [] [] []]. Qed.

Lemma js_parseInt_digits ws d rest :
  all_spaces ws = true -> all_digits d = true -> parseInt d <> 0 ->
  stops_number rest ->
  js_parseInt (ws +:+ d +:+ rest) = Some (parseInt d).
Proof.
  intros Hws Hd Hne Hrest.
  destruct d as [|c d'] eqn:Ed; [done|]. rewrite <- Ed in *.
  assert (is_digit c = true) as Hc.
  { rewrite Ed in Hd. simpl in Hd. by apply andb_prop in Hd as [? _]. }
  assert (is_space c = false) as Hsp.
  { destruct (is_space c) eqn:E; [|done]. apply space_not_digit in E. congruence. }
  destruct (digit_not_sign c Hc) as [Hminus Hplus].
  unfold js_parseInt. rewrite run_length_app by done.
  assert (run_length is_space (d +:+ rest) = 0%nat) as ->.
  { rewrite Ed, append_cons. simpl. by rewrite Hsp. }
  rewrite Nat.add_0_r, drop_str_app.
  assert (strip_sign (d +:+ rest) = (1, d +:+ rest)) as ->.
  { rewrite Ed, append_cons. simpl. by rewrite Hminus, Hplus. }
  assert (forall x, Ascii.eqb x "x" = true \/ Ascii.eqb x "X" = true ->
                    String.prefix (String "0" (String x "")) (d +:+ rest) = false)
    as Hprefix.
  { intros x Hx. destruct (String.prefix _ _) eqn:E; [exfalso|done].
    apply prefix_append in E. rewrite Ed, !append_cons in E.
    injection E as -> E. destruct d' as [|c' d''].
    - apply Hne. by rewrite Ed.
    - rewrite append_cons in E. assert (c' = x) as -> by congruence.
      rewrite Ed in Hd. simpl in Hd.
      destruct Hx as [->%Ascii.eqb_eq| ->%Ascii.eqb_eq]; by vm_compute in Hd. }
  rewrite (Hprefix "x"%char), (Hprefix "X"%char) by (by auto). simpl orb. cbv iota.
  rewrite run_length_app by done.
  assert (run_length is_digit rest = 0%nat) as ->.
  { destruct rest; simpl in *; [done|]. by rewrite Hrest. }
  rewrite Nat.add_0_r, take_str_app.
  destruct (decide (d = "")) as [E|_]; [congruence|].
  by rewrite Z.mul_1_l.
Qed.

(** * The claims *)



(** C2.  The end-to-end scenario: Mine from level 1 to level 3 with the
    Warehouse at level 1 and no speed bonus. *)
Theorem mine_scenario :
  (calculateResourcesRecursive "Mine" 3 (Some 1) 0%Qc mineDB mineLevels ∅).1
  = {| individualCosts := {[ "metal" := Qc_of_Z 300 ]};
       individualTimes := Qc_of_Z 180;
       dependencyCosts := {[ "wood" := Qc_of_Z 50 ]};
       dependencyTimes := Qc_of_Z 30;
       totalCosts := {[ "metal" := Qc_of_Z 300; "wood" := Qc_of_Z 50 ]};
       totalTime := Qc_of_Z 210;
       dependencies :=
         [ {| dep_name := "Warehouse"; dep_level := 2;
              dep_resources := {[ "wood" := Qc_of_Z 50 ]};
              dep_time := Qc_of_Z 30 |} ] |}.
Proof. apply result_view_inj. vm_compute. reflexivity. Qed.


(** C4.  In one top-level call, the entries appended to [dependencies]
    lists anywhere in the recursion are for pairwise different (name, level)
    pairs, with pairwise different keys, none of which was visited before
    the call; the keys added to [visited] are exactly theirs, and the
    entries of the result are among them. *)
Theorem no_pair_charged_twice structure targetLevel currentLevel bonus db lv v :
  let out := calculateResourcesRecursive structure targetLevel currentLevel
                                         bonus db lv v in
  NoDup (appended out.2)
  /\ NoDup (pair_key <$> appended out.2)
  /\ (forall p, p ∈ appended out.2 -> pair_key p ∉ v)
  /\ visited out.2 = v ∪ list_to_set (pair_key <$> appended out.2)
  /\ dep_pair <$> dependencies out.1 `sublist_of` appended out.2.
Proof.
  intros out.
  pose proof (calc_enough_fuel bonus db lv structure targetLevel currentLevel v
                               _ (le_n _)) as E.
  fold out in E. destruct out as [r st'].
  apply calc_appends in E as (new & (Happ & Hvis & Hnd & Hfresh) & Hsub).
  simpl in *. subst new.
  split_and!; [by eapply NoDup_fmap_1|done..].
Qed.



(** C6, as amended.  For every input and any two bonuses, the structure's
    own time is the sum over the levels in range of the upgrade time divided
    by [1 + bonus / 100], and the costs, the listed prerequisites with their
    resources, and the visited keys are the same for both bonuses.  When the
    upgrade times of the database are non-negative and the bonuses are above
    -100 with [p1 <= p2], every time of the result at [p2] is at most the one
    at [p1]. *)
Theorem speed_bonus_shortens_times structure targetLevel currentLevel db lv v
    p1 p2 :
  let out1 := calculateResourcesRecursive structure targetLevel currentLevel
                                          p1 db lv v in
  let out2 := calculateResourcesRecursive structure targetLevel currentLevel
                                          p2 db lv v in
  let own := levels_in_range db structure
               (resolve_level lv structure currentLevel) targetLevel in
  individualTimes out1.1
    = sum_Qc ((fun ld => upgrade_time ld / (1 + p1 / Qc_of_Z 100))%Qc <$> own)
  /\ individualTimes out2.1
    = sum_Qc ((fun ld => upgrade_time ld / (1 + p2 / Qc_of_Z 100))%Qc <$> own)
  /\ individualCosts out2.1 = individualCosts out1.1
  /\ dependencyCosts out2.1 = dependencyCosts out1.1
  /\ totalCosts out2.1 = totalCosts out1.1
  /\ dep_pair <$> dependencies out2.1 = dep_pair <$> dependencies out1.1
  /\ dep_resources <$> dependencies out2.1 = dep_resources <$> dependencies out1.1
  /\ out2.2 = out1.2
  /\ (nonneg_times db -> (Qc_of_Z (-100) < p1)%Qc -> (p1 <= p2)%Qc ->
      (individualTimes out2.1 <= individualTimes out1.1)%Qc
      /\ (dependencyTimes out2.1 <= dependencyTimes out1.1)%Qc
      /\ (totalTime out2.1 <= totalTime out1.1)%Qc
      /\ Forall2 (fun d2 d1 => (dep_time d2 <= dep_time d1)%Qc)
                 (dependencies out2.1) (dependencies out1.1)).
Proof.
  intros out1 out2 own.
  pose proof (calc_enough_fuel p1 db lv structure targetLevel currentLevel v
                               _ (le_n _)) as E1.
  pose proof (calc_enough_fuel p2 db lv structure targetLevel currentLevel v
                               _ (le_n _)) as E2.
  fold out1 in E1. fold out2 in E2.
  destruct out1 as [r1 st1], out2 as [r2 st2]. simpl.
  pose proof (individualTimes_calc _ _ _ _ _ _ _ _ _ _ E1) as Hown1.
  pose proof (individualTimes_calc _ _ _ _ _ _ _ _ _ _ E2) as Hown2.
  destruct (alike_calc (fun _ _ => True) I (fun _ _ _ _ _ _ => I) db lv p1 p2
                       (fun _ _ _ _ _ _ => I) _ _ _ _ _ _ _ E1)
    as (r2' & E2' & H1 & H2 & H3 & _ & _ & _ & H7).
  rewrite E2 in E2'. injection E2' as <- <-.
  apply alike_dependencies in H7 as (Hpairs & Hres & _).
  split_and!; try done.
  intros Hdb Hp1 Hp.
  assert (forall s sdef lvl ld,
             db !! s = Some sdef -> levels sdef !! lvl = Some ld ->
             (upgrade_time ld / speed_divisor p2
              <= upgrade_time ld / speed_divisor p1)%Qc) as Hdiv.
  { intros s sdef lvl ld Hs Hl.
    apply Qcdiv_le_divisor;
      [by eapply Hdb|by apply speed_divisor_pos|by apply speed_divisor_mono]. }
  destruct (alike_calc Qcle (Qcle_refl 0) Qcplus_le_compat db lv p1 p2 Hdiv
                       _ _ _ _ _ _ _ E1)
    as (r2' & E2' & _ & _ & _ & H4 & H5 & H6 & H7).
  rewrite E2 in E2'. injection E2' as <-.
  apply alike_dependencies in H7 as (_ & _ & H7). done.
Qed.

Lemma speed_bonus_shortens_times_witness :
  Qcle (totalTime (calculateResourcesRecursive "Mine" 3 (Some 1) (Qc_of_Z 50)
                                               mineDB mineLevels ∅).1)
       (totalTime (calculateResourcesRecursive "Mine" 3 (Some 1) (Qc_of_Z (-50))
                                               mineDB mineLevels ∅).1).
Proof.
  assert (nonneg_times mineDB) as Hdb.
  { intros s sdef lvl ld Hs Hl. unfold mineDB in Hs.
    in_table Hs ltac:(simpl in Hl; in_table Hl ltac:(by vm_compute)). }
  apply (speed_bonus_shortens_times "Mine" 3 (Some 1) mineDB mineLevels ∅
           (Qc_of_Z (-50)) (Qc_of_Z 50)); [exact Hdb|by vm_compute..].
Defined.

(** C6, the claim as stated fails.  A bonus below -100 makes the divisor
    negative: from -200 to 0 the bonus grows and the time grows from -180 to
    180 seconds. *)
Lemma speed_bonus_below_minus_100 :
  (Qc_of_Z (-200) <= 0)%Qc
  /\ individualTimes (calculateResourcesRecursive "Mine" 3 (Some 1) (Qc_of_Z (-200))
                                                  mineDB mineLevels ∅).1
     = Qc_of_Z (-180)
  /\ individualTimes (calculateResourcesRecursive "Mine" 3 (Some 1) 0%Qc
                                                  mineDB mineLevels ∅).1
     = Qc_of_Z 180
  /\ ~ Qcle (individualTimes
               (calculateResourcesRecursive "Mine" 3 (Some 1) 0%Qc
                                            mineDB mineLevels ∅).1)
            (individualTimes
               (calculateResourcesRecursive "Mine" 3 (Some 1) (Qc_of_Z (-200))
                                            mineDB mineLevels ∅).1).
Proof.
  split_and!; [by vm_compute|by apply (inj this); vm_compute..|].
  intros H. vm_compute in H. by apply H.
Qed.



(** C8, as amended.  The parser returns a pair exactly when the string
    contains, anywhere, the word Level and a space, one or more digits, white
    space and a character that is not a line terminator; the pair it returns
    has the value of the digits as level and, as structure, the text after the
    white space up to the end of the line.  For a string of the form
    [Level <digits> <name>], with a name that starts with a character other
    than white space and has no line terminator, the structure is the name. *)
Theorem parseRequirement_pattern s :
  (is_Some (parseRequirement s) <-> contains_pattern s)
  /\ (forall parsed, parseRequirement s = Some parsed -> found_pattern s parsed)
  /\ (forall digits spaces name,
         s = "Level " +:+ digits +:+ spaces +:+ name ->
         digits <> "" -> all_digits digits = true ->
         spaces <> "" -> all_spaces spaces = true ->
         plain_name name ->
         parseRequirement s = Some (mkRequirement name (parseInt digits)))
  /\ parseRequirement "Level 5 Barracks" = Some (mkRequirement "Barracks" 5)
  /\ parseRequirement "Barracks Level 5" = None
  /\ parseRequirement "garbage" = None.
Proof.
  split_and!; [|apply parseRequirement_found| |done..].
  - split; [|apply contains_parsed].
    intros [parsed H]. eapply found_contains, parseRequirement_found, H.
  - intros digits spaces name -> ? ? ? ? ?. unfold parseRequirement.
    by rewrite (regex_match_here _ (digits, name)) by by apply match_here_plain.
Qed.

Lemma parseRequirement_pattern_witness :
  parseRequirement "Level 12  Town Hall" = Some (mkRequirement "Town Hall" 12).
Proof.
  apply (proj1 (proj2 (proj2 (parseRequirement_pattern "Level 12  Town Hall")))
               "12" "  " "Town Hall"); by vm_compute.
Defined.

(** C8, the claim as stated fails.  A string that does not start with the
    word Level is parsed when the pattern occurs later in it; and the name
    stops at a line terminator, so it is not always the rest of the
    string. *)
Lemma parseRequirement_not_whole_string :
  parseRequirement "Upgrade to Level 5 Barracks"
  = Some (mkRequirement "Barracks" 5)
  /\ (~ exists parsed, whole_string_pattern "Upgrade to Level 5 Barracks" parsed)
  /\ whole_string_pattern
       ("Level 5 Barracks" +:+ String "010" "Hall")
       (mkRequirement ("Barracks" +:+ String "010" "Hall") 5)
  /\ parseRequirement ("Level 5 Barracks" +:+ String "010" "Hall")
     = Some (mkRequirement "Barracks" 5).
Proof.
  split_and!; [done| |by exists "5", " "|done].
  intros (parsed & digits & spaces & H & _). by cbv [String.append] in H.
Qed.

(** C9.  In every tree the builder returns, the children of every node are
    for pairwise different (structure, target level) pairs; and the check is
    local to one node: in [branchDB], where C and D both demand level 2 of
    B, the tree for A has the children C and D and each of them has its own
    child B. *)
Theorem children_distinct_only_among_siblings :
  (forall fuel structure targetLevel currentLevel db lv bonus v tree,
      buildDependencyTree fuel structure targetLevel currentLevel db lv bonus v
      = Some tree ->
      tree_all distinct_children tree)
  /\ exists tree,
       buildDependencyTree 3 "A" 2 (Some 1) branchDB ∅ 0%Qc ∅ = Some tree
       /\ child_pair <$> tree_children tree = [("C", 2); ("D", 2)]
       /\ (fun child => child_pair <$> tree_children child) <$> tree_children tree
          = [[("B", 2)]; [("B", 2)]].
Proof.
  split.
  - intros fuel s t c db lv bonus v tree E.
    by apply buildDependencyTree_distinct in E as [_ ?].
  - eexists. split_and!; [vm_compute; reflexivity|reflexivity..].
Qed.

Lemma children_distinct_only_among_siblings_witness :
  exists tree,
    buildDependencyTree 3 "A" 2 (Some 1) branchDB ∅ 0%Qc ∅ = Some tree
    /\ tree_all distinct_children tree.
Proof.
  eexists. split; [vm_compute; reflexivity|].
  apply (proj1 children_distinct_only_among_siblings
               3%nat "A" 2 (Some 1) branchDB ∅ 0%Qc ∅).
  vm_compute. reflexivity.
Defined.

(** C10.  The tree does not depend on the [visited] argument: the set is
    copied for every recursive call and never read or added to. *)
Theorem tree_ignores_visited fuel structure targetLevel currentLevel db lv bonus
    (v1 v2 : gset string) :
  buildDependencyTree fuel structure targetLevel currentLevel db lv bonus v1
  = buildDependencyTree fuel structure targetLevel currentLevel db lv bonus v2.
Proof. apply buildDependencyTree_visited. Qed.

(** * Further properties of the code *)



(** X2.  Two prerequisites have the same key in [visited] only when they
    are the same structure at the same level (levels are not negative: they
    are read from digits), and so, in a call that starts with an empty
    [visited], a key is visited exactly when an entry for its structure and
    level was appended somewhere in the recursion. *)
Theorem visited_keys_name_one_pair structure targetLevel currentLevel bonus
    db lv name level n1 l1 n2 l2 :
  0 <= level -> 0 <= l1 -> 0 <= l2 ->
  let out := calculateResourcesRecursive structure targetLevel currentLevel
                                         bonus db lv ∅ in
  (make_depKey n1 l1 = make_depKey n2 l2 -> n1 = n2 /\ l1 = l2)
  /\ (make_depKey name level ∈ visited out.2 <-> (name, level) ∈ appended out.2).
Proof.
  intros Hl H1 H2 out. split; [by apply make_depKey_inj|].
  pose proof (calc_enough_fuel bonus db lv structure targetLevel currentLevel ∅
                               _ (le_n _)) as E.
  fold out in E. destruct out as [r st']. simpl.
  assert (forall p, p ∈ appended st' -> 0 <= p.2) as Hpos.
  { eapply calc_appended_nonneg; [exact E|]. by intros ? ?%elem_of_nil. }
  apply calc_appends in E as (new & (Happ & -> & _) & _).
  simpl in Happ. subst new.
  rewrite elem_of_union, elem_of_list_to_set, list_elem_of_fmap. split.
  - intros [[]%elem_of_empty|([n l] & Hkey & Hin)].
    apply make_depKey_inj in Hkey as [-> ->]; [done..|].
    apply (Hpos _ Hin).
  - intros Hin. right. by exists (name, level).
Qed.

Lemma visited_keys_name_one_pair_witness :
  make_depKey "Warehouse" 2
    ∈ visited (calculateResourcesRecursive "Mine" 3 (Some 1) 0%Qc
                                           mineDB mineLevels ∅).2
  <-> ("Warehouse", 2)
        ∈ appended (calculateResourcesRecursive "Mine" 3 (Some 1) 0%Qc
                                                mineDB mineLevels ∅).2.
Proof.
  apply (visited_keys_name_one_pair "Mine" 3 (Some 1) 0%Qc mineDB mineLevels
           "Warehouse" 2 "Warehouse" 2 "Warehouse" 2); lia.
Defined.

(** X3.  The dependency totals are the sums over the listed prerequisites:
    for every resource, [dependencyCosts] is the sum of the entries'
    [resources], and [dependencyTimes] is the sum of the entries' [time]. *)
Theorem dependency_totals_are_listed structure targetLevel currentLevel bonus
    db lv v :
  let r := (calculateResourcesRecursive structure targetLevel currentLevel
                                        bonus db lv v).1 in
  (forall resource,
      amount (dependencyCosts r) resource
      = sum_Qc ((fun d => amount (dep_resources d) resource) <$> dependencies r))
  /\ dependencyTimes r = sum_Qc (dep_time <$> dependencies r).
Proof.
  intros r.
  pose proof (calc_enough_fuel bonus db lv structure targetLevel currentLevel v
                               _ (le_n _)) as E.
  fold (calculateResourcesRecursive structure targetLevel currentLevel
                                    bonus db lv v) in r.
  destruct (calculateResourcesRecursive _ _ _ _ _ _ _) as [r0 st'].
  by apply listed_sums_calc in E.
Qed.

(** X4.  The structure's own cost of a resource is the sum of what the
    levels in range, as far as the database defines them, ask of that
    resource; a level without the resource, or missing, adds nothing. *)
Theorem own_costs_sum_over_levels structure targetLevel currentLevel bonus
    db lv v resource :
  amount (individualCosts
            (calculateResourcesRecursive structure targetLevel currentLevel
                                         bonus db lv v).1) resource
  = sum_Qc ((fun ld => amount (costs ld) resource) <$>
              levels_in_range db structure
                (resolve_level lv structure currentLevel) targetLevel).
Proof.
  pose proof (calc_enough_fuel bonus db lv structure targetLevel currentLevel v
                               _ (le_n _)) as E.
  destruct (calculateResourcesRecursive _ _ _ _ _ _ _) as [r0 st'].
  by eapply individualCosts_calc.
Qed.

(** X5.  With a database whose costs and upgrade times are not negative
    and a bonus above -100, nothing in the result is negative: no amount of
    the three cost maps, none of the three times, and no amount or time of a
    listed prerequisite. *)
Theorem result_is_nonneg structure targetLevel currentLevel bonus db lv v :
  nonneg_costs db -> nonneg_times db -> (Qc_of_Z (-100) < bonus)%Qc ->
  let r := (calculateResourcesRecursive structure targetLevel currentLevel
                                        bonus db lv v).1 in
  (forall resource,
      (0 <= amount (individualCosts r) resource)%Qc
      /\ (0 <= amount (dependencyCosts r) resource)%Qc
      /\ (0 <= amount (totalCosts r) resource)%Qc)
  /\ (0 <= individualTimes r)%Qc /\ (0 <= dependencyTimes r)%Qc
  /\ (0 <= totalTime r)%Qc
  /\ forall d, d ∈ dependencies r ->
       (0 <= dep_time d)%Qc
       /\ forall resource, (0 <= amount (dep_resources d) resource)%Qc.
Proof.
  intros Hc Ht Hb r.
  pose proof (calc_enough_fuel bonus db lv structure targetLevel currentLevel v
                               _ (le_n _)) as E.
  fold (calculateResourcesRecursive structure targetLevel currentLevel
                                    bonus db lv v) in r.
  destruct (calculateResourcesRecursive _ _ _ _ _ _ _) as [r0 st']. simpl in r.
  apply (nonneg_calc db lv bonus Hc Ht (speed_divisor_pos _ Hb)) in E
    as (H1 & H2 & H3 & ? & ? & ? & Hd).
  split_and!; [by intros resource; split_and!|done..|].
  intros d Hin. rewrite Forall_forall in Hd. destruct (Hd d Hin). by split.
Qed.

Lemma result_is_nonneg_witness :
  Qcle 0 (totalTime (calculateResourcesRecursive "Mine" 3 (Some 1)
                       (Qc_of_Z (-50)) mineDB mineLevels ∅).1).
Proof.
  assert (nonneg_times mineDB) as Ht.
  { intros s sdef lvl ld Hs Hl. unfold mineDB in Hs.
    in_table Hs ltac:(simpl in Hl; in_table Hl ltac:(by vm_compute)). }
  assert (nonneg_costs mineDB) as Hc.
  { intros s sdef lvl ld res a Hs Hl Ha. unfold mineDB in Hs.
    in_table Hs ltac:(simpl in Hl;
      in_table Hl ltac:(simpl in Ha;
        first [by apply lookup_empty_Some in Ha
              |apply lookup_singleton_Some in Ha as [_ <-]; by vm_compute])). }
  apply (result_is_nonneg "Mine" 3 (Some 1) (Qc_of_Z (-50)) mineDB mineLevels ∅
                          Hc Ht).
  by vm_compute.
Defined.




(** X8.  The root of the tree carries what the aggregator reports as the
    structure's own part: the node is for the structure, the current and the
    target level of the call, its costs are [individualCosts] and its time is
    [individualTimes] of the aggregator's result for the same call (whatever
    the two [visited] sets are). *)
Theorem tree_root_is_own_part fuel structure targetLevel currentLevel db lv
    bonus v v' tree :
  buildDependencyTree fuel structure targetLevel currentLevel db lv bonus v
  = Some tree ->
  let r := (calculateResourcesRecursive structure targetLevel currentLevel
                                        bonus db lv v').1 in
  tree_structure tree = structure
  /\ tree_currentLevel tree = resolve_level lv structure currentLevel
  /\ tree_targetLevel tree = targetLevel
  /\ tree_costs tree = individualCosts r
  /\ tree_time tree = individualTimes r.
Proof.
  intros E r.
  pose proof (calc_enough_fuel bonus db lv structure targetLevel currentLevel v'
                               _ (le_n _)) as Ecalc.
  fold (calculateResourcesRecursive structure targetLevel currentLevel
                                    bonus db lv v') in r.
  destruct (calculateResourcesRecursive _ _ _ _ _ _ _) as [r0 st']. simpl in r.
  destruct (buildDependencyTree_root _ _ _ _ _ _ _ _ _ E) as (? & ? & ?).
  destruct (buildDependencyTree_own _ _ _ _ _ _ _ _ _ _ _ _ _ E Ecalc).
  by split_and!.
Qed.

Lemma tree_root_is_own_part_witness :
  exists tree,
    buildDependencyTree 3 "Mine" 3 (Some 1) mineDB mineLevels 0%Qc ∅ = Some tree
    /\ tree_costs tree
       = individualCosts (calculateResourcesRecursive "Mine" 3 (Some 1) 0%Qc
                                                      mineDB mineLevels ∅).1.
Proof.
  eexists. split; [vm_compute; reflexivity|].
  apply (tree_root_is_own_part 3 "Mine" 3 (Some 1) mineDB mineLevels 0%Qc ∅ ∅).
  vm_compute. reflexivity.
Defined.



(** X10.  Every prerequisite the aggregator lists is a child of the root of
    the tree built for the same structure, levels and database (whatever the
    bonus and the [visited] sets are); so when [dependencies] is not empty,
    the root has children. *)
Theorem listed_prerequisites_are_children fuel structure targetLevel
    currentLevel db lv bonus bonus' v v' tree :
  buildDependencyTree fuel structure targetLevel currentLevel db lv bonus v
  = Some tree ->
  let r := (calculateResourcesRecursive structure targetLevel currentLevel
                                        bonus' db lv v').1 in
  (forall d, d ∈ dependencies r ->
             (dep_name d, dep_level d) ∈ child_pair <$> tree_children tree)
  /\ (dependencies r <> [] -> tree_children tree <> []).
Proof.
  intros E r.
  pose proof (calc_enough_fuel bonus' db lv structure targetLevel currentLevel v'
                               _ (le_n _)) as Ecalc.
  fold (calculateResourcesRecursive structure targetLevel currentLevel
                                    bonus' db lv v') in r.
  destruct (calculateResourcesRecursive _ _ _ _ _ _ _) as [r0 st']. simpl in r.
  apply calc_dependencies in Ecalc as (o & (_ & _ & Hmax) & Hsub & Hup & _).
  assert (forall d, d ∈ dependencies r ->
                    (dep_name d, dep_level d) ∈ child_pair <$> tree_children tree)
    as Hin.
  { intros d Hd.
    assert (dep_pair d ∈ dep_pair <$> dependencies r0) as Hp
      by (apply list_elem_of_fmap; eauto).
    apply (buildDependencyTree_children _ _ _ _ _ _ _ _ _ _ E).
    exists (mkRequirement (dep_name d) (dep_level d)).
    split_and!; [|exact (Hup _ Hp)|done].
    apply Hmax. rewrite <- Object_entries_perm.
    eapply elem_of_sublist; [exact Hp|exact Hsub]. }
  split; [done|].
  intros Hne Hnil. destruct (dependencies r) as [|d ds] eqn:Hd; [done|].
  specialize (Hin d ltac:(left)). rewrite Hnil in Hin. by apply elem_of_nil in Hin.
Qed.

Lemma listed_prerequisites_are_children_witness :
  exists tree,
    buildDependencyTree 3 "Mine" 3 (Some 1) mineDB mineLevels 0%Qc ∅ = Some tree
    /\ tree_children tree <> [].
Proof.
  eexists. split; [vm_compute; reflexivity|].
  apply (listed_prerequisites_are_children 3 "Mine" 3 (Some 1) mineDB mineLevels
           0%Qc 0%Qc ∅ ∅); [vm_compute; reflexivity|].
  by vm_compute.
Defined.



(** X12.  The tree builder does not return on a cycle of unmet
    requirements: if every upgrade of a family asks, at a level in its
    range, for another upgrade of the family that is above the current
    level, no depth of recursion is enough for any of them (the [visited]
    set is passed along but never consulted). *)
Theorem tree_builder_loops_on_a_cycle db lv bonus (family : string -> Z -> Prop) :
  (forall s t, family s t ->
     exists q, family (req_structure q) (req_level q)
               /\ q ∈ demands db s (level_or_1 lv s) t
               /\ unmet lv q) ->
  forall fuel structure targetLevel currentLevel v,
    family structure targetLevel ->
    resolve_level lv structure currentLevel = level_or_1 lv structure ->
    buildDependencyTree fuel structure targetLevel currentLevel db lv bonus v
    = None.
Proof.
  intros Hfam. induction fuel as [|fuel IH]; intros s t c v Hst Hc; [done|].
  destruct (buildDependencyTree (S fuel) s t c db lv bonus v) as [tree|] eqn:E;
    [exfalso|done].
  destruct (Hfam s t Hst) as (q & Hq & Hin & Hun).
  assert (req_pair q ∈ child_pair <$> tree_children tree) as Hchild.
  { apply (buildDependencyTree_children _ _ _ _ _ _ _ _ _ _ E).
    exists q. by rewrite Hc. }
  apply list_elem_of_fmap in Hchild as (child & Hpair & Hchild).
  apply buildDependencyTree_made in E.
  rewrite Forall_forall in E. specialize (E child Hchild).
  injection Hpair as Hs Ht. rewrite <- Hs, <- Ht in E.
  by rewrite IH in E.
Qed.

Lemma tree_builder_loops_on_a_cycle_witness :
  buildDependencyTree 1000 "A" 2 None cycleDB ∅ 0%Qc ∅ = None.
Proof.
  apply (tree_builder_loops_on_a_cycle cycleDB ∅ 0%Qc
           (fun s t => t = 2 /\ (s = "A" \/ s = "B"))).
  - intros s t [-> [->| ->]].
    + exists (mkRequirement "B" 2). split; [by auto|split; [|by vm_compute]].
      apply list_elem_of_In. vm_compute. by left.
    + exists (mkRequirement "A" 2). split; [by auto|split; [|by vm_compute]].
      apply list_elem_of_In. vm_compute. by left.
  - by auto.
  - reflexivity.
Defined.

(** X13.  Below one second the formatter prints "0s": a fraction of a
    second, zero, and every negative number of seconds, whose components are
    all negative or zero and so are never pushed. *)
Theorem formatTime_below_one_second seconds :
  (seconds < 1)%Qc -> formatTime seconds = "0s".
Proof.
  intros Hlt. destruct (Qclt_le_dec seconds 0) as [Hneg%Qclt_le_weak|Hpos].
  - unfold formatTime. cbv zeta.
    pose proof (floor_nonpos _ (div_nonpos seconds 86400 Hneg eq_refl)) as Hd.
    pose proof (floor_nonpos _ (div_nonpos _ 3600
                  (js_rem_nonpos seconds 86400 Hneg eq_refl) eq_refl)) as Hh.
    pose proof (floor_nonpos _ (div_nonpos _ 60
                  (js_rem_nonpos seconds 3600 Hneg eq_refl) eq_refl)) as Hm.
    pose proof (floor_nonpos _ (js_rem_nonpos seconds 60 Hneg eq_refl)) as Hs.
    apply Z.ltb_ge in Hd, Hh, Hm, Hs. by rewrite Hd, Hh, Hm, Hs.
  - rewrite formatTime_floor by done.
    assert (floor seconds = 0) as ->; [|done].
    pose proof (floor_nonneg seconds Hpos).
    assert (floor seconds < 1); [|lia].
    rewrite Zlt_Qlt. eapply Qle_lt_trans; [apply Qfloor_le|exact Hlt].
Qed.

Lemma formatTime_below_one_second_witness :
  formatTime (Qc_of_Z (-3661)) = "0s".
Proof. apply (formatTime_below_one_second (Qc_of_Z (-3661))). by vm_compute. Defined.

(** X14.  The formatter drops what it does not show: of a non-negative
    number only the whole seconds count, and from one hour on the seconds
    beyond the last whole minute do not count either. *)
Theorem formatTime_drops_fraction_and_seconds seconds :
  (0 <= seconds)%Qc ->
  formatTime seconds = formatTime (Qc_of_Z (floor seconds))
  /\ ((Qc_of_Z 3600 <= seconds)%Qc ->
      formatTime seconds
      = formatTime (Qc_of_Z (floor seconds - floor seconds mod 60))).
Proof.
  intros Hx. pose proof (floor_nonneg seconds Hx) as Hn.
  assert (forall n, 0 <= n -> formatTime (Qc_of_Z n) = format_spec n) as Hwhole.
  { intros n Hn'. rewrite formatTime_floor, floor_Qc_of_Z; [done|].
    unfold Qcle, Qc_of_Z. simpl. unfold Qle. simpl. lia. }
  rewrite formatTime_floor by done. split; [by rewrite Hwhole|].
  intros Hhour.
  assert (3600 <= floor seconds) as Hfloor.
  { rewrite <- (floor_Qc_of_Z 3600). by apply Qfloor_resp_le. }
  rewrite Hwhole by (Z.div_mod_to_equations; lia).
  by apply format_spec_whole_minutes.
Qed.

Lemma formatTime_drops_fraction_and_seconds_witness :
  formatTime (Qc_of_Z 3661) = formatTime (Qc_of_Z (3661 - 3661 mod 60)).
Proof.
  assert (0 <= Qc_of_Z 3661)%Qc as H0 by (by vm_compute).
  assert (Qc_of_Z 3600 <= Qc_of_Z 3661)%Qc as H1 by (by vm_compute).
  exact (proj2 (formatTime_drops_fraction_and_seconds (Qc_of_Z 3661) H0) H1).
Defined.

(** X15.  [updateLevel] fails exactly for a structure that is not in the
    database.  Otherwise, whatever is typed, it stores for the structure a
    level that is at least 1 and at most the number of levels of the
    structure (1 if it has none), a level the calculator then reads as it
    is; the levels of the other structures stay as they were. *)
Theorem updateLevel_clamps db lv structure value :
  (updateLevel db lv structure value = None <-> db !! structure = None)
  /\ forall lv',
       updateLevel db lv structure value = Some lv' ->
       exists sdef level,
         db !! structure = Some sdef
         /\ lv' = <[structure := level]> lv
         /\ 1 <= level <= Z.max 1 (Z.of_nat (size (levels sdef)))
         /\ level_or_1 lv' structure = level
         /\ forall other, other <> structure ->
                          level_or_1 lv' other = level_or_1 lv other.
Proof.
  unfold updateLevel. destruct (db !! structure) as [sdef|]; [|by split].
  split; [by split|]. intros lv' [= <-]. eexists sdef, _.
  split_and!; [done|done|lia|lia| |].
  - unfold level_or_1. rewrite lookup_insert_eq.
    by destruct (Z.max_spec 1 (Z.min (Z.of_nat (size (levels sdef)))
                   match js_parseInt value with
                   | Some 0 | None => 1
                   | Some n => n
                   end)) as [[? ->]|[? ->]]; [destruct (Z.min _ _); try lia|].
  - intros other Hne. unfold level_or_1. by rewrite lookup_insert_ne.
Qed.

Lemma updateLevel_clamps_witness :
  exists sdef level,
    mineDB !! "Mine" = Some sdef
    /\ <[ "Mine" := 3 ]> mineLevels = <[ "Mine" := level ]> mineLevels
    /\ 1 <= level <= Z.max 1 (Z.of_nat (size (levels sdef)))
    /\ level_or_1 (<[ "Mine" := 3 ]> mineLevels) "Mine" = level
    /\ forall other, other <> "Mine" ->
                     level_or_1 (<[ "Mine" := 3 ]> mineLevels) other
                     = level_or_1 mineLevels other.
Proof.
  apply (proj2 (updateLevel_clamps mineDB mineLevels "Mine" "17")).
  by vm_compute.
Defined.

(** X16.  Typing a level of the structure stores it: for the decimal
    numeral of a level between 1 and the number of levels, after any white
    space and before anything that does not start with a digit (nothing, a
    fraction, an exponent), [updateLevel] stores exactly that level. *)
Theorem updateLevel_stores_typed_level db lv structure sdef level spaces rest :
  db !! structure = Some sdef ->
  1 <= level <= Z.of_nat (size (levels sdef)) ->
  all_spaces spaces = true ->
  stops_number rest ->
  updateLevel db lv structure (spaces +:+ Z_to_string level +:+ rest)
  = Some (<[structure := level]> lv).
Proof.
  intros Hs Hl Hsp Hrest. unfold updateLevel.
  rewrite js_parseInt_digits, parseInt_Z_to_string, Hs; try done; try lia.
  - simpl. destruct level; try lia. do 2 f_equal. lia.
  - by apply all_digits_Z_to_string; lia.
  - rewrite parseInt_Z_to_string; lia.
Qed.

Lemma updateLevel_stores_typed_level_witness :
  updateLevel mineDB mineLevels "Mine" (" " +:+ Z_to_string 2 +:+ ".5")
  = Some (<[ "Mine" := 2 ]> mineLevels).
Proof.
  apply (updateLevel_stores_typed_level mineDB mineLevels "Mine"
           (mkStructure
              {[ 1 := mkLevelData ∅ 0%Qc [];
                 2 := mkLevelData {[ "metal" := Qc_of_Z 100 ]} (Qc_of_Z 60)
                                  ["Level 1 Warehouse"];
                 3 := mkLevelData {[ "metal" := Qc_of_Z 200 ]} (Qc_of_Z 120)
                                  ["Level 2 Warehouse"] ]})
           2 " " ".5"); by vm_compute.
Defined.
